(** * sf_deconvolve: the PSF gradient operators and the script options

    A shallow embedding of [old/psf/operators.py] (the operator classes
    [GradBasic], [GradZero], [StandardPSF], [StandardPSFnoGrad] and
    [PixelVariantPSF]) and of [psf_scripts/deconvolution_args.py]
    ([get_opts]).

    The operator classes are thin stateful wrappers: they bind arrays to
    attributes of [self], call the convolution routines of the module
    [convolve] and register with [PowerMethod] of the module [algorithms].
    Neither module is part of the sources at hand, so their routines are
    the fields of the class [Collaborators] below; everything the operator
    classes themselves do (attribute binding, validation, method
    resolution, the order of the calls, the numpy arithmetic in between) is
    modelled concretely and can be run on concrete inputs. *)

From Stdlib Require Import Floats.PrimFloat Ascii String.
From stdpp Require Import gmap strings list.

Module Operators.

(** ** numpy arrays

    An array is its shape and its elements in row-major order; elements
    are IEEE-754 binary64 numbers, numpy's default [float64]. *)

Record ndarray := NdArray { shape : list nat; data : list float }.

(** Number of elements of an array of shape [s]. *)
Definition size (s : list nat) : nat := foldr Nat.mul 1 s.

(** [np.zeros(s)]. *)
Definition np_zeros (s : list nat) : ndarray :=
  {| shape := s; data := replicate (size s) 0%float |}.

(** Python exceptions, as far as the operators meet them. The routines of
    [convolve] may raise any of them; the operators never catch. *)
Inductive exn :=
| ValueError (msg : string)
| AttributeError (msg : string)
| TypeError (msg : string)
| OtherError (msg : string).

Inductive result (A : Type) :=
| Ok (a : A)
| Raise (e : exn).
Arguments Ok {A} a.
Arguments Raise {A} e.

(** numpy broadcasting. [broadcast_dims] works on reversed shapes
    (trailing dimension first): two dimensions are compatible when they
    are equal or one of them is 1. *)
Definition broadcast_dim (a b : nat) : option nat :=
  if decide (a = b) then Some a
  else if decide (a = 1) then Some b
  else if decide (b = 1) then Some a
  else None.

Fixpoint broadcast_dims (r1 r2 : list nat) : option (list nat) :=
  match r1, r2 with
  | [], _ => Some r2
  | _, [] => Some r1
  | a :: r1', b :: r2' =>
      match broadcast_dim a b, broadcast_dims r1' r2' with
      | Some d, Some r => Some (d :: r)
      | _, _ => None
      end
  end.

Definition broadcast_shapes (s1 s2 : list nat) : option (list nat) :=
  reverse <$> broadcast_dims (reverse s1) (reverse s2).

(** [stretch s t d]: the elements [d] of an array of shape [s], repeated
    along every dimension where [s] has 1 and [t] does not; [s] and [t]
    have the same rank. *)
Fixpoint stretch (s t : list nat) (d : list float) : list float :=
  match s, t with
  | a :: s', n :: t' =>
      let k := size s' in
      if decide (a = n)
      then concat ((λ i, stretch s' t' (take k (drop (i * k) d))) <$> seq 0 a)
      else concat (replicate n (stretch s' t' (take k d)))
  | _, _ => d
  end.

(** [np.broadcast_to(a, t).ravel()]: missing leading dimensions count
    as 1. *)
Definition broadcast_to (a : ndarray) (t : list nat) : list float :=
  stretch (replicate (length t - length (shape a)) 1 ++ shape a) t (data a).

(** [a - b] on arrays. *)
Definition np_sub (a b : ndarray) : result ndarray :=
  match broadcast_shapes (shape a) (shape b) with
  | Some s =>
      Ok {| shape := s;
            data := zip_with PrimFloat.sub (broadcast_to a s) (broadcast_to b s) |}
  | None => Raise (ValueError "operands could not be broadcast together")
  end.

(** ** The class hierarchy and method resolution *)

Inductive class_name :=
| GradBasic
| GradZero
| StandardPSF
| StandardPSFnoGrad
| PixelVariantPSF
| PowerMethod.

#[global] Instance class_name_eq_dec : EqDecision class_name.
Proof. solve_decision. Defined.

(** The base classes, in the order of the [class] statements. *)
Definition bases (c : class_name) : list class_name :=
  match c with
  | GradBasic => []
  | GradZero => [GradBasic]
  | StandardPSF => [GradBasic; PowerMethod]
  | StandardPSFnoGrad => [GradZero; StandardPSF]
  | PixelVariantPSF => [GradBasic; PowerMethod]
  | PowerMethod => []
  end.

(** The methods each class body defines. Of [PowerMethod] the operators
    only use [__init__]. *)
Definition defines (c : class_name) : list string :=
  match c with
  | GradBasic => ["MtMX"; "get_grad"]
  | GradZero => ["get_grad"]
  | StandardPSF => ["__init__"; "MX"; "MtX"]
  | StandardPSFnoGrad => []
  | PixelVariantPSF => ["__init__"; "MX"; "MtX"]
  | PowerMethod => ["__init__"]
  end.

(** C3 linearization, the method resolution order of new-style classes. *)
Definition c3_candidate (seqs : list (list class_name)) : option class_name :=
  head (filter (λ h, Forall (λ s, h ∉ tail s) seqs) (omap head seqs)).

Fixpoint c3_merge (fuel : nat) (seqs : list (list class_name))
  : option (list class_name) :=
  match filter (λ s, s ≠ []) seqs with
  | [] => Some []
  | live =>
      match fuel with
      | 0 => None
      | S fuel' =>
          match c3_candidate live with
          | Some h =>
              (h ::.) <$> c3_merge fuel' (filter (λ k, k ≠ h) <$> live)
          | None => None
          end
      end
  end.

Fixpoint linearize (depth : nat) (c : class_name) : option (list class_name) :=
  match depth with
  | 0 => None
  | S depth' =>
      ls ← mapM (linearize depth') (bases c);
      (c ::.) <$> c3_merge (length (concat ls) + length (bases c))
                           (ls ++ [bases c])
  end.

Definition mro (c : class_name) : option (list class_name) := linearize 6 c.

(** The lookup order of classic (old-style) Python 2 classes: depth
    first, left to right. *)
Fixpoint classic_order (depth : nat) (c : class_name) : list class_name :=
  match depth with
  | 0 => []
  | S depth' => c :: concat (classic_order depth' <$> bases c)
  end.

Definition first_definer (name : string) (order : list class_name)
  : option class_name :=
  snd <$> list_find (λ k, name ∈ defines k) order.

(** The class whose body provides attribute [name] of an instance
    of [c]. *)
Definition resolve (c : class_name) (name : string) : option class_name :=
  order ← mro c; first_definer name order.

Definition resolve_classic (c : class_name) (name : string) : option class_name :=
  first_definer name (classic_order 6 c).

(** ** Objects, the heap and the calls that leave the module

    Arrays live on a heap and are passed by reference, as in Python: an
    attribute of [self] holds a reference, two references may alias. *)

Abbreviation loc := positive.

(** A bound method [self.name], with the class whose body defines it. *)
Inductive callable :=
| BoundMethod (definer : class_name) (name : string).

(** The attributes of an operator instance; [None] is an attribute that
    has not been set. The last three are those of the power-iteration
    base: the registered map, the registered shape and the cached norm. *)
Record instance := Instance {
  class_of : class_name;
  self_y : option loc;
  self_psf : option loc;
  self_psf_type : option string;
  self_data_format : option string;
  self_psf_pcs : option loc;
  self_psf_coef : option loc;
  self_grad : option loc;
  pm_operator : option callable;
  pm_shape : option (list nat);
  pm_norm : option float
}.

Definition set_y (v : option loc) (o : instance) : instance :=
  {| class_of := class_of o; self_y := v; self_psf := self_psf o;
     self_psf_type := self_psf_type o;
     self_data_format := self_data_format o; self_psf_pcs := self_psf_pcs o;
     self_psf_coef := self_psf_coef o; self_grad := self_grad o;
     pm_operator := pm_operator o; pm_shape := pm_shape o;
     pm_norm := pm_norm o |}.

Definition set_psf (v : option loc) (o : instance) : instance :=
  {| class_of := class_of o; self_y := self_y o; self_psf := v;
     self_psf_type := self_psf_type o;
     self_data_format := self_data_format o; self_psf_pcs := self_psf_pcs o;
     self_psf_coef := self_psf_coef o; self_grad := self_grad o;
     pm_operator := pm_operator o; pm_shape := pm_shape o;
     pm_norm := pm_norm o |}.

Definition set_psf_type (v : option string) (o : instance) : instance :=
  {| class_of := class_of o; self_y := self_y o; self_psf := self_psf o;
     self_psf_type := v; self_data_format := self_data_format o;
     self_psf_pcs := self_psf_pcs o; self_psf_coef := self_psf_coef o;
     self_grad := self_grad o; pm_operator := pm_operator o;
     pm_shape := pm_shape o; pm_norm := pm_norm o |}.

Definition set_data_format (v : option string) (o : instance) : instance :=
  {| class_of := class_of o; self_y := self_y o; self_psf := self_psf o;
     self_psf_type := self_psf_type o; self_data_format := v;
     self_psf_pcs := self_psf_pcs o; self_psf_coef := self_psf_coef o;
     self_grad := self_grad o; pm_operator := pm_operator o;
     pm_shape := pm_shape o; pm_norm := pm_norm o |}.

Definition set_psf_pcs (v : option loc) (o : instance) : instance :=
  {| class_of := class_of o; self_y := self_y o; self_psf := self_psf o;
     self_psf_type := self_psf_type o;
     self_data_format := self_data_format o; self_psf_pcs := v;
     self_psf_coef := self_psf_coef o; self_grad := self_grad o;
     pm_operator := pm_operator o; pm_shape := pm_shape o;
     pm_norm := pm_norm o |}.

Definition set_psf_coef (v : option loc) (o : instance) : instance :=
  {| class_of := class_of o; self_y := self_y o; self_psf := self_psf o;
     self_psf_type := self_psf_type o;
     self_data_format := self_data_format o; self_psf_pcs := self_psf_pcs o;
     self_psf_coef := v; self_grad := self_grad o;
     pm_operator := pm_operator o; pm_shape := pm_shape o;
     pm_norm := pm_norm o |}.

Definition set_grad (v : option loc) (o : instance) : instance :=
  {| class_of := class_of o; self_y := self_y o; self_psf := self_psf o;
     self_psf_type := self_psf_type o;
     self_data_format := self_data_format o; self_psf_pcs := self_psf_pcs o;
     self_psf_coef := self_psf_coef o; self_grad := v;
     pm_operator := pm_operator o; pm_shape := pm_shape o;
     pm_norm := pm_norm o |}.

Definition set_pm_operator (v : option callable) (o : instance) : instance :=
  {| class_of := class_of o; self_y := self_y o; self_psf := self_psf o;
     self_psf_type := self_psf_type o;
     self_data_format := self_data_format o; self_psf_pcs := self_psf_pcs o;
     self_psf_coef := self_psf_coef o; self_grad := self_grad o;
     pm_operator := v; pm_shape := pm_shape o; pm_norm := pm_norm o |}.

Definition set_pm_shape (v : option (list nat)) (o : instance) : instance :=
  {| class_of := class_of o; self_y := self_y o; self_psf := self_psf o;
     self_psf_type := self_psf_type o;
     self_data_format := self_data_format o; self_psf_pcs := self_psf_pcs o;
     self_psf_coef := self_psf_coef o; self_grad := self_grad o;
     pm_operator := pm_operator o; pm_shape := v; pm_norm := pm_norm o |}.

Definition set_pm_norm (v : option float) (o : instance) : instance :=
  {| class_of := class_of o; self_y := self_y o; self_psf := self_psf o;
     self_psf_type := self_psf_type o;
     self_data_format := self_data_format o; self_psf_pcs := self_psf_pcs o;
     self_psf_coef := self_psf_coef o; self_grad := self_grad o;
     pm_operator := pm_operator o; pm_shape := pm_shape o; pm_norm := v |}.

(** An instance before [__init__] has run. *)
Definition blank (c : class_name) : instance :=
  {| class_of := c; self_y := None; self_psf := None; self_psf_type := None;
     self_data_format := None; self_psf_pcs := None; self_psf_coef := None;
     self_grad := None; pm_operator := None; pm_shape := None;
     pm_norm := None |}.

(** The calls an operator makes to the modules [convolve] and
    [algorithms], with their actual arguments. *)
Inductive event :=
| Call_psf_convolve (x psf : loc) (psf_rot : bool) (psf_type data_format : string)
| Call_pca_convolve (x psf_pcs psf_coef : loc) (pcs_rot : bool)
| Call_pca_convolve_stack (x psf_pcs psf_coef : loc) (pcs_rot : bool)
| Call_PowerMethod_init (operator : callable) (data_shape : list nat)
                        (auto_run : bool).

Record state := State {
  self : instance;
  heap : gmap positive ndarray;
  trace : list event
}.

Definition with_self (f : instance → instance) (s : state) : state :=
  {| self := f (self s); heap := heap s; trace := trace s |}.

(** Computations that read and write the state and may raise; what was
    done before an exception stays done. *)
Definition M (A : Type) : Type := state → result A * state.

#[global] Instance M_ret : MRet M := λ A a s, (Ok a, s).

#[global] Instance M_bind : MBind M := λ A B f m s,
  match m s with
  | (Ok a, s') => f a s'
  | (Raise e, s') => (Raise e, s')
  end.

Definition raise {A} (e : exn) : M A := λ s, (Raise e, s).

Definition lift {A} (r : result A) : M A := λ s, (r, s).

#[global] Instance result_ret : MRet result := λ A a, Ok a.

#[global] Instance result_bind : MBind result := λ A B f r,
  match r with
  | Ok a => f a
  | Raise e => Raise e
  end.

Definition modify_self (f : instance → instance) : M () :=
  λ s, (Ok (), with_self f s).

(** [self.name], an instance attribute. *)
Definition getattr {A} (name : string) (field : instance → option A) : M A :=
  λ s, match field (self s) with
       | Some a => (Ok a, s)
       | None => (Raise (AttributeError name), s)
       end.

(** [self.name], a method: the class that provides it. *)
Definition getmethod (name : string) : M class_name :=
  λ s, match resolve (class_of (self s)) name with
       | Some c => (Ok c, s)
       | None => (Raise (AttributeError name), s)
       end.

(** Reading an array through a reference. A Python reference always
    points somewhere; the error only arises for a [loc] that is not on
    the heap. *)
Definition deref (l : loc) : M ndarray :=
  λ s, match heap s !! l with
       | Some a => (Ok a, s)
       | None => (Raise (OtherError "dangling reference"), s)
       end.

(** A new array object. *)
Definition alloc (a : ndarray) : M loc :=
  λ s, let l := fresh (dom (heap s)) in
       (Ok l, {| self := self s; heap := <[l:=a]> (heap s); trace := trace s |}).

Definition log (e : event) : M () :=
  λ s, (Ok (), {| self := self s; heap := heap s; trace := trace s ++ [e] |}).

(** [np.array(a)]: a copy. *)
Definition np_array (a : loc) : M loc := v ← deref a; alloc v.

(** [a - b] on references: a new array. *)
Definition subtract (a b : loc) : M loc :=
  va ← deref a; vb ← deref b; r ← lift (np_sub va vb); alloc r.

(** [np.zeros(x.shape)]. *)
Definition zeros_like_shape (x : loc) : M loc :=
  vx ← deref x; alloc (np_zeros (shape vx)).

(** The routines of the modules [convolve] and [algorithms], which the
    sources at hand do not contain. The convolutions are functions of the
    contents of their arguments and return a new array or raise;
    [get_spec_rad] is the power iteration that computes and caches the
    norm. *)
Class Collaborators := {
  psf_convolve : ndarray → ndarray → bool → string → string → result ndarray;
  pca_convolve : ndarray → ndarray → ndarray → bool → result ndarray;
  pca_convolve_stack : ndarray → ndarray → ndarray → bool → result ndarray;
  get_spec_rad : M ()
}.

Section WithCollaborators.
Context `{Collaborators}.

Definition call_psf_convolve (x psf : loc) (psf_rot : bool)
    (psf_type data_format : string) : M loc :=
  log (Call_psf_convolve x psf psf_rot psf_type data_format);;
  vx ← deref x; vk ← deref psf;
  r ← lift (psf_convolve vx vk psf_rot psf_type data_format);
  alloc r.

Definition call_pca_convolve (x psf_pcs psf_coef : loc) (pcs_rot : bool) : M loc :=
  log (Call_pca_convolve x psf_pcs psf_coef pcs_rot);;
  vx ← deref x; vp ← deref psf_pcs; vc ← deref psf_coef;
  r ← lift (pca_convolve vx vp vc pcs_rot);
  alloc r.

Definition call_pca_convolve_stack (x psf_pcs psf_coef : loc) (pcs_rot : bool)
  : M loc :=
  log (Call_pca_convolve_stack x psf_pcs psf_coef pcs_rot);;
  vx ← deref x; vp ← deref psf_pcs; vc ← deref psf_coef;
  r ← lift (pca_convolve_stack vx vp vc pcs_rot);
  alloc r.

(** Modelled from the spec: [PowerMethod.__init__] of the module
    [algorithms], which is missing from the sources. It is constructed
    with a composed-map callable, a shape and an [auto_run] flag; with
    [auto_run=False] the norm is computed only on request. *)
Definition PowerMethod_init (operator : callable) (data_shape : list nat)
    (auto_run : bool) : M () :=
  log (Call_PowerMethod_init operator data_shape auto_run);;
  modify_self (set_pm_operator (Some operator));;
  modify_self (set_pm_shape (Some data_shape));;
  if auto_run then get_spec_rad else mret ().

(** *** class StandardPSF *)

Definition StandardPSF_MX (x : loc) : M loc :=
  k ← getattr "psf" self_psf;
  pt ← getattr "psf_type" self_psf_type;
  df ← getattr "data_format" self_data_format;
  call_psf_convolve x k false pt df.

Definition StandardPSF_MtX (x : loc) : M loc :=
  k ← getattr "psf" self_psf;
  pt ← getattr "psf_type" self_psf_type;
  df ← getattr "data_format" self_data_format;
  call_psf_convolve x k true pt df.

(** *** class PixelVariantPSF *)

Definition PixelVariantPSF_MX (x : loc) : M loc :=
  df ← getattr "data_format" self_data_format;
  if decide (df = "map")
  then pcs ← getattr "psf_pcs" self_psf_pcs;
       coef ← getattr "psf_coef" self_psf_coef;
       call_pca_convolve x pcs coef false
  else pcs ← getattr "psf_pcs" self_psf_pcs;
       coef ← getattr "psf_coef" self_psf_coef;
       call_pca_convolve_stack x pcs coef false.

Definition PixelVariantPSF_MtX (x : loc) : M loc :=
  df ← getattr "data_format" self_data_format;
  if decide (df = "map")
  then pcs ← getattr "psf_pcs" self_psf_pcs;
       coef ← getattr "psf_coef" self_psf_coef;
       call_pca_convolve x pcs coef true
  else pcs ← getattr "psf_pcs" self_psf_pcs;
       coef ← getattr "psf_coef" self_psf_coef;
       call_pca_convolve_stack x pcs coef true.

(** *** Calling [self.MX] and [self.MtX]

    [apply_MX c] runs the function [MX] of the body of class [c]. *)
Definition apply_MX (c : class_name) (x : loc) : M loc :=
  match c with
  | StandardPSF => StandardPSF_MX x
  | PixelVariantPSF => PixelVariantPSF_MX x
  | _ => raise (AttributeError "MX")
  end.

Definition apply_MtX (c : class_name) (x : loc) : M loc :=
  match c with
  | StandardPSF => StandardPSF_MtX x
  | PixelVariantPSF => PixelVariantPSF_MtX x
  | _ => raise (AttributeError "MtX")
  end.

Definition MX (x : loc) : M loc := c ← getmethod "MX"; apply_MX c x.

Definition MtX (x : loc) : M loc := c ← getmethod "MtX"; apply_MtX c x.

(** *** class GradBasic

    In [self.MtX(self.MX(x))] Python looks up [self.MtX] first, then
    evaluates the argument. *)
Definition GradBasic_MtMX (x : loc) : M loc :=
  mt ← getmethod "MtX";
  m ← getmethod "MX";
  r ← apply_MX m x;
  apply_MtX mt r.

Definition GradBasic_get_grad (x : loc) : M () :=
  mt ← getmethod "MtX";
  m ← getmethod "MX";
  r ← apply_MX m x;
  yl ← getattr "y" self_y;
  d ← subtract r yl;
  g ← apply_MtX mt d;
  modify_self (set_grad (Some g)).

(** *** class GradZero *)

Definition GradZero_get_grad (x : loc) : M () :=
  z ← zeros_like_shape x;
  modify_self (set_grad (Some z)).

Definition MtMX (x : loc) : M loc :=
  c ← getmethod "MtMX";
  match c with
  | GradBasic => GradBasic_MtMX x
  | _ => raise (AttributeError "MtMX")
  end.

Definition get_grad (x : loc) : M () :=
  c ← getmethod "get_grad";
  match c with
  | GradBasic => GradBasic_get_grad x
  | GradZero => GradZero_get_grad x
  | _ => raise (AttributeError "get_grad")
  end.

(** *** The constructors *)

Definition StandardPSF_init (data psf : loc) (psf_type data_format : string)
  : M () :=
  modify_self (set_y (Some data));;
  modify_self (set_psf (Some psf));;
  (if decide (psf_type ∈ ["fixed"; "obj_var"])
   then modify_self (set_psf_type (Some psf_type))
   else raise (ValueError "Invalid PSF type. Options are fixed or obj_var"));;
  (if decide (data_format ∈ ["map"; "cube"])
   then modify_self (set_data_format (Some data_format))
   else raise (ValueError "Invalid data type. Options are map or cube."));;
  c ← getmethod "MtMX";
  yl ← getattr "y" self_y;
  vy ← deref yl;
  PowerMethod_init (BoundMethod c "MtMX") (shape vy) false.

(** The message [Invalid data type. Options are "map" or "cube".], with
    its double quotes (character 34). *)
Definition PixelVariantPSF_invalid_format : string :=
  let q := String (Ascii.ascii_of_nat 34) EmptyString in
  "Invalid data type. Options are " +:+ q +:+ "map" +:+ q +:+ " or "
  +:+ q +:+ "cube" +:+ q +:+ ".".

Definition PixelVariantPSF_init (data psf_pcs psf_coef : loc)
    (data_format : string) : M () :=
  modify_self (set_y (Some data));;
  pcs ← np_array psf_pcs;
  modify_self (set_psf_pcs (Some pcs));;
  coef ← np_array psf_coef;
  modify_self (set_psf_coef (Some coef));;
  (if decide (data_format ∈ ["map"; "cube"])
   then modify_self (set_data_format (Some data_format))
   else raise (ValueError PixelVariantPSF_invalid_format));;
  c ← getmethod "MtMX";
  cl ← getattr "psf_coef" self_psf_coef;
  vc ← deref cl;
  PowerMethod_init (BoundMethod c "MtMX") (drop 1 (shape vc)) false.

(** The arguments of a constructor call, given by name. The defaults of
    the [def] lines are [psf_type='fixed'], [data_format='cube'] for
    [StandardPSF] and [data_format='map'] for [PixelVariantPSF]. *)
Inductive arguments :=
| StandardArgs (data psf : loc) (psf_type data_format : option string)
| PixelArgs (data psf_pcs psf_coef : loc) (data_format : option string).

(** [__init__] as the class of [self] resolves it. A class without
    [__init__] takes no arguments, and a keyword the resolved [__init__]
    does not have is a [TypeError]. *)
Definition init (args : arguments) : M () :=
  λ s, match resolve (class_of (self s)) "__init__", args with
       | Some StandardPSF, StandardArgs data psf psf_type data_format =>
           StandardPSF_init data psf (default "fixed" psf_type)
                            (default "cube" data_format) s
       | Some PixelVariantPSF, PixelArgs data psf_pcs psf_coef data_format =>
           PixelVariantPSF_init data psf_pcs psf_coef
                                (default "map" data_format) s
       | _, _ => (Raise (TypeError "__init__ arguments"), s)
       end.

(** [c(args)] run on heap [h]: the outcome of [__init__] and the state it
    leaves, also when it raises. *)
Definition instantiate (c : class_name) (args : arguments)
    (h : gmap positive ndarray) : result () * state :=
  init args {| self := blank c; heap := h; trace := [] |}.

(** The value of the expression [c(args)]: the object, unless
    [__init__] raised. *)
Definition construct (c : class_name) (args : arguments)
    (h : gmap positive ndarray) : result state :=
  match instantiate c args h with
  | (Ok _, s) => Ok s
  | (Raise e, _) => Raise e
  end.

(** ** The life of an operator

    After construction an operator is only used through its four
    methods. *)
Inductive method_call :=
| Do_MX (x : loc)
| Do_MtX (x : loc)
| Do_MtMX (x : loc)
| Do_get_grad (x : loc).

(** The state a method call leaves, whether it returns or raises. *)
Definition perform (k : method_call) (s : state) : state :=
  match k with
  | Do_MX x => (MX x s).2
  | Do_MtX x => (MtX x s).2
  | Do_MtMX x => (MtMX x s).2
  | Do_get_grad x => (get_grad x s).2
  end.

(** The states of an operator built by [c(args)] on heap [h]. *)
Inductive reachable (c : class_name) (args : arguments)
    (h : gmap positive ndarray) : state → Prop :=
| reach_new s : construct c args h = Ok s → reachable c args h s
| reach_call s k : reachable c args h s → reachable c args h (perform k s).

(** ** The maps an operator stands for

    The linear map M and its transpose as functions on array contents,
    read off the constructor arguments: what [MX] and [MtX] are meant to
    compute, without references, attributes or dispatch. *)
Definition fetch (h : gmap positive ndarray) (l : loc) : result ndarray :=
  match h !! l with
  | Some v => Ok v
  | None => Raise (OtherError "dangling reference")
  end.

Definition operator_map (args : arguments) (h : gmap positive ndarray)
    (rot : bool) (vx : ndarray) : result ndarray :=
  match args with
  | StandardArgs _ psf psf_type data_format =>
      vk ← fetch h psf;
      psf_convolve vx vk rot (default "fixed" psf_type)
                   (default "cube" data_format)
  | PixelArgs _ psf_pcs psf_coef data_format =>
      vp ← fetch h psf_pcs;
      vc ← fetch h psf_coef;
      if decide (default "map" data_format = "map")
      then pca_convolve vx vp vc rot
      else pca_convolve_stack vx vp vc rot
  end.

Definition forward (args : arguments) (h : gmap positive ndarray)
  : ndarray → result ndarray := operator_map args h false.

Definition adjoint (args : arguments) (h : gmap positive ndarray)
  : ndarray → result ndarray := operator_map args h true.

(** The bound observation [y]. *)
Definition observation (args : arguments) : loc :=
  match args with
  | StandardArgs data _ _ _ => data
  | PixelArgs data _ _ _ => data
  end.

(** M^T (M x - y) on array contents. *)
Definition gradient (args : arguments) (h : gmap positive ndarray)
    (vx : ndarray) : result ndarray :=
  m ← forward args h vx;
  vy ← fetch h (observation args);
  d ← np_sub m vy;
  adjoint args h d.

(** The references passed to the constructor point to arrays. *)
Definition valid_refs (args : arguments) (h : gmap positive ndarray) : Prop :=
  match args with
  | StandardArgs data psf _ _ => is_Some (h !! data) ∧ is_Some (h !! psf)
  | PixelArgs data psf_pcs psf_coef _ =>
      is_Some (h !! data) ∧ is_Some (h !! psf_pcs) ∧ is_Some (h !! psf_coef)
  end.

End WithCollaborators.

(** The same object seen as an instance of another class. *)
Definition retag (c : class_name) (s : state) : state :=
  with_self (λ o,
    {| class_of := c; self_y := self_y o; self_psf := self_psf o;
       self_psf_type := self_psf_type o;
       self_data_format := self_data_format o;
       self_psf_pcs := self_psf_pcs o; self_psf_coef := self_psf_coef o;
       self_grad := self_grad o; pm_operator := pm_operator o;
       pm_shape := pm_shape o; pm_norm := pm_norm o |}) s.

(** [s'] follows [s]: every array of [s] is still there with the same
    contents, and no attribute but [grad] has changed. *)
Definition follows (s s' : state) : Prop :=
  heap s ⊆ heap s' ∧ set_grad None (self s) = set_grad None (self s').

(** A computation that only allocates and rebinds [grad]. *)
Definition steady {A} (m : M A) : Prop := ∀ s, follows s (m s).2.

(** [s] is a state of an operator that [c(args)] built on heap [h]. *)
Definition built `{Collaborators} (c : class_name) (args : arguments)
    (h : gmap positive ndarray) (s : state) : Prop :=
  ∃ s0, construct c args h = Ok s0 ∧ follows s0 s.

(** The three operator classes; [GradBasic] and [GradZero] alone have no
    [MX] and [MtX]. *)
Definition operator_class (c : class_name) : Prop :=
  c = StandardPSF ∨ c = StandardPSFnoGrad ∨ c = PixelVariantPSF.


(** The instance a successful [StandardPSF.__init__] leaves, for an
    observation with contents [vy]. *)
Definition standard_instance (c : class_name) (data psf : loc)
    (pt df : string) (vy : ndarray) : instance :=
  {| class_of := c; self_y := Some data; self_psf := Some psf;
     self_psf_type := Some pt; self_data_format := Some df;
     self_psf_pcs := None; self_psf_coef := None; self_grad := None;
     pm_operator := Some (BoundMethod GradBasic "MtMX");
     pm_shape := Some (shape vy); pm_norm := None |}.

(** The instance a successful [PixelVariantPSF.__init__] leaves; [pcs]
    and [coef] are the copies it made, [vc] the coefficients. *)
Definition pixel_instance (data pcs coef : loc) (df : string) (vc : ndarray)
  : instance :=
  {| class_of := PixelVariantPSF; self_y := Some data; self_psf := None;
     self_psf_type := None; self_data_format := Some df;
     self_psf_pcs := Some pcs; self_psf_coef := Some coef; self_grad := None;
     pm_operator := Some (BoundMethod GradBasic "MtMX");
     pm_shape := Some (drop 1 (shape vc)); pm_norm := None |}.

(** What a call of a convolution routine that returns [r] does to the
    state: the call is recorded and a returned array is a new object. *)
Definition primitive_outcome (ev : event) (r : result ndarray) (s : state)
  : result loc * state :=
  match r with
  | Ok v =>
      (Ok (fresh (dom (heap s))),
       {| self := self s; heap := <[fresh (dom (heap s)):=v]> (heap s);
          trace := trace s ++ [ev] |})
  | Raise e =>
      (Raise e, {| self := self s; heap := heap s; trace := trace s ++ [ev] |})
  end.

(** [m] run in [s] behaves as the function result [r] says: it returns a
    reference to the array, or raises the same exception. *)
Definition yields (m : M loc) (s : state) (r : result ndarray) : Prop :=
  match r with
  | Ok v => ∃ l s', m s = (Ok l, s') ∧ heap s' !! l = Some v ∧ follows s s'
  | Raise e => ∃ s', m s = (Raise e, s') ∧ follows s s'
  end.

(** No trace of a registration with the power iteration. *)
Definition unregistered (s : state) : Prop :=
  trace s = [] ∧ pm_operator (self s) = None ∧ pm_shape (self s) = None
  ∧ pm_norm (self s) = None.

End Operators.

Module DeconvolutionArgs.

(** ** Values of the namespace *)

#[warnings="-register-all"]
Inductive value :=
| VNone
| VBool (b : bool)
| VInt (n : Z)
| VFloat (x : float)
| VStr (s : string)
| VList (l : list value).

(** ** Arguments of an [argparse] parser *)

Inductive action_kind :=
| store
| store_true
| store_false
| help_action
| version_action.

(** [type=]: the conversion applied to an argument string. *)
Inductive converter :=
| to_str
| to_int
| to_float.

(** [nargs=]: [None] (one argument, stored as such) or ['+'] (one or
    more, stored as a list). *)
Inductive arity :=
| one
| one_or_more.

(** The keyword arguments of [add_argument] that the script uses. *)
Inductive kwarg :=
| dest (d : string)
| action (a : action_kind)
| required (b : bool)
| default_ (v : value)
| type_ (t : converter)
| choices (l : list string)
| nargs (n : arity)
| help (text : string)
| version (text : string).

(** A registered argument. [a_dest = None] is [argparse.SUPPRESS]: the
    action stores nothing (help and version). *)
Record argument := Argument {
  option_strings : list string;
  a_dest : option string;
  a_action : action_kind;
  a_nargs : arity;
  a_type : converter;
  a_default : value;
  a_required : bool;
  a_choices : option (list string)
}.

Definition kw_first {A} (pick : kwarg → option A) (kw : list kwarg) : option A :=
  head (omap pick kw).

(** [dest] inferred from the first long option string, else the first
    option string: leading dashes dropped, inner dashes made
    underscores. *)
Fixpoint strip_dashes (s : string) : string :=
  match s with
  | String c s' => if Ascii.eqb c "-" then strip_dashes s' else s
  | EmptyString => EmptyString
  end.

Fixpoint underscores (s : string) : string :=
  match s with
  | String c s' => String (if Ascii.eqb c "-" then "_"%char else c) (underscores s')
  | EmptyString => EmptyString
  end.

Definition infer_dest (flags : list string) : string :=
  let long := filter (λ f, String.prefix "--" f = true) flags in
  underscores (strip_dashes (default "" (head (long ++ flags)))).

(** [add_argument(flags, kw)]. The defaults are those of argparse:
    action [store]; [store_true] defaults to [False] and [store_false]
    to [True]; help and version store nothing. *)
Definition add_argument (flags : list string) (kw : list kwarg) : argument :=
  let act := default store
               (kw_first (λ k, match k with action a => Some a | _ => None end) kw) in
  let given_dest := kw_first (λ k, match k with dest d => Some d | _ => None end) kw in
  let given_default :=
    kw_first (λ k, match k with default_ v => Some v | _ => None end) kw in
  {| option_strings := flags;
     a_dest := match act with
               | help_action | version_action => given_dest
               | _ => Some (default (infer_dest flags) given_dest)
               end;
     a_action := act;
     a_nargs := default one
                  (kw_first (λ k, match k with nargs n => Some n | _ => None end) kw);
     a_type := default to_str
                 (kw_first (λ k, match k with type_ t => Some t | _ => None end) kw);
     a_default := match act with
                  | store_true => default (VBool false) given_default
                  | store_false => default (VBool true) given_default
                  | _ => default VNone given_default
                  end;
     a_required := default false
                     (kw_first (λ k, match k with required b => Some b | _ => None end) kw);
     a_choices := kw_first (λ k, match k with choices l => Some l | _ => None end) kw |}.

(** The parser that [get_opts] sets up, in the order of its
    [add_argument] calls. The two argument groups only arrange the help
    text. *)
Definition get_opts_parser : list argument :=
  [ add_argument ["-h"; "--help"]
      [action help_action; help "show this help message and exit"];
    add_argument ["-v"; "--version"]
      [action version_action; version "%(prog)s v3.0"];
    add_argument ["-i"; "--input"]
      [dest "input"; required true; help "Input noisy data file name."];
    add_argument ["-p"; "--psf"]
      [dest "psf"; required true; help "PSF file name."];
    add_argument ["-o"; "--output"]
      [dest "output"; required true; help "Output file name."];
    add_argument ["-k"; "--current_res"]
      [dest "current_res"; required false;
       help "Current deconvolution results file name."];
    add_argument ["-c"; "--clean_data"]
      [dest "clean_data"; required false; help "Clean data file name."];
    add_argument ["-r"; "--random_seed"]
      [dest "random_seed"; type_ to_int; required false; help "Random seed."];
    add_argument ["--psf_type"]
      [dest "psf_type"; required false; default_ (VStr "obj_var");
       choices ["fixed"; "obj_var"];
       help "PSF fortmat type. [fixed or obj_var]"];
    add_argument ["--noise_est"]
      [dest "noise_est"; type_ to_float; required false;
       help "Initial noise estimate."];
    add_argument ["-m"; "--mode"]
      [dest "mode"; default_ (VStr "lowr");
       choices ["all"; "sparse"; "lowr"; "grad"]; required false;
       help "Option to specify the optimisation mode. [all, sparse, lowr or grad]"];
    add_argument ["--opt_type"]
      [dest "opt_type"; default_ (VStr "condat");
       choices ["condat"; "fwbw"; "gfwbw"]; required false;
       help "Option to specify the optimisation method tobe implemented. [condat, fwbw or gfwbw]"];
    add_argument ["-w"; "--wavelet_levels"]
      [dest "wavelet_levels"; type_ to_int; required false; default_ (VInt 3);
       help "Number of wavelet levels."];
    add_argument ["--wavelet_type"]
      [dest "wavelet_type"; required false; default_ (VStr "1");
       help "Wavelet type."];
    add_argument ["--wave_thresh_factor"]
      [dest "wave_tf"; type_ to_float; nargs one_or_more; required false;
       default_ (VList [VFloat 3; VFloat 3; VFloat 4]);
       help "Wavelet threshold factor."];
    add_argument ["--lowr_thresh_factor"]
      [dest "lowr_tf"; type_ to_float; required false; default_ (VInt 1);
       help "Low rank threshold factor."];
    add_argument ["--lowr_type"]
      [dest "lowr_type"; required false; default_ (VStr "standard");
       help "Low rank type. [standard or ngole]"];
    add_argument ["--lowr_thresh_type"]
      [dest "lowr_thresh_type"; required false; default_ (VStr "soft");
       help "Low rank threshold type. [soft or hard]"];
    add_argument ["--n_reweights"]
      [dest "n_reweights"; type_ to_int; required false; default_ (VInt 1);
       help "Number of reweightings."];
    add_argument ["--n_iter"]
      [dest "n_iter"; type_ to_int; required false; default_ (VInt 150);
       help "Number of iterations."];
    add_argument ["--relax"]
      [dest "relax"; type_ to_float; required false;
       default_ (VFloat 0x1.999999999999ap-1);
       help "Relaxation parameter (rho_n)."];
    add_argument ["--kernel"]
      [dest "kernel"; type_ to_float; required false;
       help "Sigma value for Gaussian kernel."];
    add_argument ["--no_pos"]
      [dest "no_pos"; action store_false; required false;
       help "Option to turn off postivity constraint."];
    add_argument ["--no_grad"]
      [dest "no_grad"; action store_false; required false;
       help "Option to turn off gradinet calculation."];
    add_argument ["--live_plot"]
      [dest "liveplot"; action store_true; required false;
       help "Option to turn on live plotting."] ].


(** ** Parsing

    [int] and [float] of Python, applied to argument strings. *)
Class PyBuiltins := {
  py_int : string → option Z;
  py_float : string → option float
}.

(** How [parse_args] ends: with a namespace, or with [SystemExit] (code 0
    after printing the help or the version, code 2 after a usage error).
    [Unmodelled] marks the command lines outside the fragment described
    here: a [--] separator, characters outside printable ASCII, short
    options with an attached value or clustered ([-ifoo], [-hv]). *)
Inductive outcome (A : Type) :=
| Parsed (a : A)
| Exit (code : Z)
| Unmodelled.
Arguments Parsed {A} a.
Arguments Exit {A} code.
Arguments Unmodelled {A}.

#[global] Instance outcome_ret : MRet outcome := λ A a, Parsed a.

#[global] Instance outcome_bind : MBind outcome := λ A B f o,
  match o with
  | Parsed a => f a
  | Exit c => Exit c
  | Unmodelled => Unmodelled
  end.

(** What argparse takes a command-line string for, before any action
    runs: an argument string, an option ([opt] is the option string that
    selected [a], [explicit] the text after [=]) or an option it does not
    know. *)
Inductive token :=
| Positional (s : string)
| Optional (a : argument) (opt : string) (explicit : option string)
| Unknown (s : string).

Fixpoint printable (s : string) : bool :=
  match s with
  | EmptyString => true
  | String c s' =>
      (32 <=? nat_of_ascii c) && (nat_of_ascii c <=? 126) && printable s'
  end.

(** [s.split(c, 1)] when [c] occurs in [s]. *)
Fixpoint split_at (c : ascii) (s : string) : option (string * string) :=
  match s with
  | EmptyString => None
  | String d s' =>
      if Ascii.eqb c d then Some (EmptyString, s')
      else (λ '(a, b), (String d a, b)) <$> split_at c s'
  end.

Fixpoint all_digits (s : string) : bool :=
  match s with
  | EmptyString => true
  | String c s' =>
      (48 <=? nat_of_ascii c) && (nat_of_ascii c <=? 57) && all_digits s'
  end.

Definition digits (s : string) : bool :=
  negb (String.eqb s "") && all_digits s.

(** The pattern [^-\d+$|^-\d*\.\d+$] of argparse, on printable ASCII. *)
Definition negative_number_like (s : string) : bool :=
  match s with
  | String "-" r =>
      digits r
      || match split_at "." r with
         | Some (a, b) => all_digits a && digits b
         | None => false
         end
  | _ => false
  end.

Definition find_option (parser : list argument) (o : string) : option argument :=
  head (filter (λ a, o ∈ option_strings a) parser).

(** The option strings that begin with [p], each with its argument. *)
Definition abbreviations (parser : list argument) (p : string)
  : list (argument * string) :=
  a ← parser;
  (λ o, (a, o)) <$> filter (λ o, String.prefix p o = true) (option_strings a).

Definition parse_optional (parser : list argument) (t : string) : outcome token :=
  let plain :=
    if negative_number_like t then Parsed (Positional t)
    else if bool_decide (is_Some (split_at " " t)) then Parsed (Positional t)
    else Parsed (Unknown t) in
  if negb (printable t) || String.eqb t "--" then Unmodelled
  else if negb (String.prefix "-" t) then Parsed (Positional t)
  else
    match find_option parser t with
    | Some a => Parsed (Optional a t None)
    | None =>
        if String.length t =? 1 then Parsed (Positional t)
        else
          match split_at "=" t ≫= λ '(o, e),
                  (λ a, (a, o, e)) <$> find_option parser o with
          | Some (a, o, e) => Parsed (Optional a o (Some e))
          | None =>
              if String.prefix "--" t
              then
                let p := default t (fst <$> split_at "=" t) in
                match abbreviations parser p with
                | [] => plain
                | [(a, o)] => Parsed (Optional a o (snd <$> split_at "=" t))
                | _ => Exit 2
                end
              else if bool_decide (is_Some (find_option parser (String.substring 0 2 t)))
              then Unmodelled
              else plain
          end
    end.

(** The namespace under construction, the arguments seen so far (by
    their option strings) and whether a string was left over. *)
Record pstate := PState {
  ns : gmap string value;
  seen : list (list string);
  extras : bool
}.

Section WithBuiltins.
Context `{PyBuiltins}.

Definition convert (t : converter) (s : string) : option value :=
  match t with
  | to_str => Some (VStr s)
  | to_int => VInt <$> py_int s
  | to_float => VFloat <$> py_float s
  end.

Definition check_value (a : argument) (v : value) : bool :=
  match a_choices a with
  | None => true
  | Some l => match v with
              | VStr s => bool_decide (s ∈ l)
              | _ => false
              end
  end.

Definition get_value (a : argument) (s : string) : option value :=
  v ← convert (a_type a) s;
  if check_value a v then Some v else None.

Definition setattr (a : argument) (v : value) (st : pstate) : pstate :=
  {| ns := match a_dest a with
           | Some d => <[d:=v]> (ns st)
           | None => ns st
           end;
     seen := option_strings a :: seen st;
     extras := extras st |}.

(** An option with its argument strings takes effect. *)
Definition take_action (a : argument) (args : list string) (st : pstate)
  : outcome pstate :=
  match a_action a with
  | help_action | version_action => Exit 0
  | store_true => Parsed (setattr a (VBool true) st)
  | store_false => Parsed (setattr a (VBool false) st)
  | store =>
      match mapM (get_value a) args, a_nargs a with
      | Some [v], one => Parsed (setattr a v st)
      | Some vs, one_or_more => Parsed (setattr a (VList vs) st)
      | _, _ => Exit 2
      end
  end.

(** The option whose argument strings are being collected. *)
Inductive pending :=
| Idle
| Awaiting (a : argument) (args : list string).

Definition flush (p : pending) (st : pstate) : outcome pstate :=
  match p with
  | Idle => Parsed st
  | Awaiting a [] => Exit 2
  | Awaiting a args => take_action a args st
  end.

Definition leave (s : string) (st : pstate) : pstate :=
  {| ns := ns st; seen := seen st; extras := true |}.

Definition consume (ps : pending * pstate) (t : token)
  : outcome (pending * pstate) :=
  let '(p, st) := ps in
  match t with
  | Positional s =>
      match p with
      | Idle => Parsed (Idle, leave s st)
      | Awaiting a args =>
          match a_nargs a with
          | one => st' ← take_action a [s] st; Parsed (Idle, st')
          | one_or_more => Parsed (Awaiting a (args ++ [s]), st)
          end
      end
  | Unknown s => st' ← flush p st; Parsed (Idle, leave s st')
  | Optional a opt explicit =>
      st' ← flush p st;
      match a_action a, explicit with
      | store, None => Parsed (Awaiting a [], st')
      | store, Some e => st'' ← take_action a [e] st'; Parsed (Idle, st'')
      | _, None => st'' ← take_action a [] st'; Parsed (Idle, st'')
      | _, Some _ => if String.prefix "--" opt then Exit 2 else Unmodelled
      end
  end.

Fixpoint consume_all (ps : pending * pstate) (toks : list token)
  : outcome (pending * pstate) :=
  match toks with
  | [] => Parsed ps
  | t :: toks' => ps' ← consume ps t; consume_all ps' toks'
  end.

Fixpoint classify (parser : list argument) (argv : list string)
  : outcome (list token) :=
  match argv with
  | [] => Parsed []
  | t :: argv' =>
      k ← parse_optional parser t;
      ks ← classify parser argv';
      Parsed (k :: ks)
  end.

(** Every destination starts at the default of the first argument that
    has it. *)
Definition initial_namespace (parser : list argument) : gmap string value :=
  foldl (λ m a, match a_dest a with
                | Some d => if decide (is_Some (m !! d)) then m
                            else <[d:=a_default a]> m
                | None => m
                end) ∅ parser.

(** A string default that no option replaced goes through the
    argument's [type]. *)
Definition convert_default (m : outcome (gmap string value)) (a : argument)
    (was_seen : bool) : outcome (gmap string value) :=
  m ← m;
  match was_seen, a_dest a, a_default a with
  | false, Some d, VStr s =>
      match m !! d with
      | Some (VStr s') =>
          if String.eqb s s'
          then match convert (a_type a) s with
               | Some v => Parsed (<[d:=v]> m)
               | None => Exit 2
               end
          else Parsed m
      | _ => Parsed m
      end
  | _, _, _ => Parsed m
  end.

Definition finish (parser : list argument) (st : pstate)
  : outcome (gmap string value) :=
  let was_seen a := bool_decide (option_strings a ∈ seen st) in
  if existsb (λ a, a_required a && negb (was_seen a)) parser then Exit 2
  else
    m ← foldl (λ m a, convert_default m a (was_seen a)) (Parsed (ns st)) parser;
    if extras st then Exit 2 else Parsed m.

Definition parse_args (parser : list argument) (argv : list string)
  : outcome (gmap string value) :=
  toks ← classify parser argv;
  '(p, st) ← consume_all
               (Idle, {| ns := initial_namespace parser; seen := [];
                         extras := false |}) toks;
  st' ← flush p st;
  finish parser st'.

(** [get_opts()] with [sys.argv[1:] = argv]. *)
Definition get_opts (argv : list string) : outcome (gmap string value) :=
  parse_args get_opts_parser argv.

(** [t] is the option string [flag], or a form of it that argparse
    resolves to the same argument. *)
Definition names (flag t : string) : bool :=
  match parse_optional get_opts_parser t with
  | Parsed (Optional a _ _) => bool_decide (flag ∈ option_strings a)
  | _ => false
  end.

Definition supplied (flag : string) (argv : list string) : bool :=
  existsb (names flag) argv.

End WithBuiltins.

(** What the table must say about an on/off option [flag] that stores
    [on] in [d]: the argument with option string [flag] has no other
    option string, has destination [d] and the matching action, and no
    other argument writes [d]. *)
Definition flag_row (flag d : string) (on : bool) (a : argument) : bool :=
  if bool_decide (flag ∈ option_strings a)
  then bool_decide (a_dest a = Some d)
       && bool_decide (option_strings a = [flag])
       && match a_action a, on with
          | store_true, true | store_false, false => true
          | _, _ => false
          end
  else negb (bool_decide (a_dest a = Some d)).

Definition is_flag (flag d : string) (on : bool) : Prop :=
  forallb (flag_row flag d on) get_opts_parser = true
  ∧ initial_namespace get_opts_parser !! d = Some (VBool (negb on)).

(** The token selects the argument of [flag]. *)
Definition hit (flag : string) (k : token) : bool :=
  match k with
  | Optional a _ _ => bool_decide (flag ∈ option_strings a)
  | _ => false
  end.

Definition in_parser (parser : list argument) (k : token) : Prop :=
  match k with
  | Optional a _ _ => a ∈ parser
  | _ => True
  end.

(** All prefixes of a string, shortest first. *)
Fixpoint prefixes (s : string) : list string :=
  EmptyString :: match s with
                 | EmptyString => []
                 | String c s' => String c <$> prefixes s'
                 end.

(** [short] is the shortest abbreviation of [flag]: every prefix of
    [flag] that argparse resolves (no other option string begins with it)
    begins with [short]. *)
Definition shortest_abbreviation (flag short : string) : Prop :=
  String.prefix short flag = true
  ∧ forallb (λ p, implb (length (abbreviations get_opts_parser p) =? 1)
                        (String.prefix short p)) (prefixes flag) = true.

(** The destination [d] of the on/off option [flag], read off a parsed
    command line: [on] exactly when the option was supplied, in
    particular when [flag] itself is on the command line, and the
    opposite when no string of the command line begins with [short]. *)
Definition toggles `{PyBuiltins} (flag short d : string) (on : bool)
    (argv : list string) (m : gmap string value) : Prop :=
  m !! d = Some (VBool (if supplied flag argv then on else negb on))
  ∧ (flag ∈ argv → m !! d = Some (VBool on))
  ∧ ((∀ t, t ∈ argv → String.prefix short t = false) →
     m !! d = Some (VBool (negb on))).

(** The value of the destination of [flag] once the tokens [seen_toks]
    have been consumed. *)
Definition flag_state (flag : string) (on : bool) (seen_toks : list token)
  : value :=
  VBool (if existsb (hit flag) seen_toks then on else negb on).

(** An option that is collecting argument strings is a [store] option of
    the parser. *)
Definition collecting (p : pending) : Prop :=
  match p with
  | Idle => True
  | Awaiting a _ => a ∈ get_opts_parser ∧ a_action a = store
  end.

(** The invariant of the consumption loop, for the destination [d] of
    [flag]. *)
Definition flag_invariant (flag d : string) (on : bool)
    (seen_toks : list token) (ps : pending * pstate) : Prop :=
  ns ps.2 !! d = Some (flag_state flag on seen_toks) ∧ collecting ps.1.

End DeconvolutionArgs.

(** ** Concrete collaborators and inputs *)

Module Demo.
Import Operators DeconvolutionArgs.

Definition scale (k : float) (a : ndarray) : ndarray :=
  {| shape := shape a; data := PrimFloat.mul k <$> data a |}.

Definition first_element (a : ndarray) : float :=
  default 0%float (head (data a)).

(** Kernels of a single pixel: convolving with one scales the image, and
    rotating it changes nothing. The power iteration caches a norm. *)
#[export] Instance single_pixel_kernels : Collaborators := {|
  psf_convolve x k _ _ _ := Ok (scale (first_element k) x);
  pca_convolve x p c _ :=
    Ok (scale (PrimFloat.mul (first_element p) (first_element c)) x);
  pca_convolve_stack x p c _ :=
    Ok (scale (PrimFloat.mul (first_element p) (first_element c)) x);
  get_spec_rad := modify_self (set_pm_norm (Some 4%float))
|}.

(** An image, a kernel, a one-component basis and its coefficients. *)
Definition arrays : gmap positive ndarray :=
  <[1%positive:=NdArray [2; 2] [1; 2; 3; 4]%float]>
  (<[2%positive:=NdArray [1; 1] [2]%float]>
  (<[3%positive:=NdArray [1; 1; 1] [3]%float]>
  (<[4%positive:=NdArray [1; 2; 2] [1; 1; 1; 1]%float]> ∅))).

Definition standard_args : arguments :=
  StandardArgs 1%positive 2%positive (Some "fixed") (Some "map").

Definition pixel_args : arguments :=
  PixelArgs 1%positive 3%positive 4%positive None.

Definition nowhere : state :=
  {| self := blank GradBasic; heap := ∅; trace := [] |}.

Definition new (c : class_name) (args : arguments) : state :=
  match construct c args arrays with
  | Ok s => s
  | Raise _ => nowhere
  end.

(** A [GradZero] object, which needs no constructor arguments. *)
Definition zero : state :=
  {| self := blank GradZero; heap := arrays; trace := [] |}.

Fixpoint decimal (acc : Z) (s : string) : Z :=
  match s with
  | EmptyString => acc
  | String c s' => decimal (10 * acc + Z.of_nat (nat_of_ascii c) - 48)%Z s'
  end.

(** [int] on plain decimal numerals; no [float] is accepted. *)
#[export] Instance plain_numerals : PyBuiltins := {|
  py_int s := if digits s then Some (decimal 0 s) else None;
  py_float _ := None
|}.

Definition command_line : list string :=
  ["-i"; "noisy.npy"; "-p"; "psf.npy"; "-o"; "out"; "--no_grad"; "--n_iter";
   "20"].

Definition options : gmap string value :=
  match get_opts command_line with
  | Parsed m => m
  | _ => ∅
  end.

End Demo.

Import Operators.

Example np_sub_rows :
  np_sub (NdArray [2; 3] [1; 2; 3; 4; 5; 6]%float) (NdArray [3] [1; 1; 2]%float)
  = Ok (NdArray [2; 3] [0; 1; 1; 3; 4; 4]%float).
Proof. vm_compute. reflexivity. Qed.

Example np_sub_outer :
  np_sub (NdArray [2; 1] [10; 20]%float) (NdArray [1; 3] [1; 2; 3]%float)
  = Ok (NdArray [2; 3] [9; 8; 7; 19; 18; 17]%float).
Proof. vm_compute. reflexivity. Qed.

Example np_sub_mismatch :
  np_sub (NdArray [2] [10; 20]%float) (NdArray [3] [1; 2; 3]%float)
  = Raise (ValueError "operands could not be broadcast together").
Proof. vm_compute. reflexivity. Qed.

Example mro_StandardPSFnoGrad :
  mro StandardPSFnoGrad
  = Some [StandardPSFnoGrad; GradZero; StandardPSF; GradBasic; PowerMethod].
Proof. vm_compute. reflexivity. Qed.

Example classic_StandardPSFnoGrad :
  classic_order 6 StandardPSFnoGrad
  = [StandardPSFnoGrad; GradZero; GradBasic; StandardPSF; GradBasic; PowerMethod].
Proof. vm_compute. reflexivity. Qed.

(** With a kernel that doubles, [x = y = [1, 2, 3, 4]] gives
    [MX(x) = [2, 4, 6, 8]], [MX(x) - y = [1, 2, 3, 4]] and the gradient
    [[2, 4, 6, 8]]. *)
Example get_grad_doubling :
  let s := Demo.new StandardPSF Demo.standard_args in
  let s' := (@get_grad Demo.single_pixel_kernels 1%positive s).2 in
  (self_grad (self s') ≫= λ g, heap s' !! g)
  = Some (NdArray [2; 2] [2; 4; 6; 8]%float).
Proof. vm_compute. reflexivity. Qed.

Example get_grad_without_gradient :
  let s := Demo.new StandardPSFnoGrad Demo.standard_args in
  let s' := (@get_grad Demo.single_pixel_kernels 1%positive s).2 in
  (self_grad (self s') ≫= λ g, heap s' !! g)
  = Some (NdArray [2; 2] [0; 0; 0; 0]%float).
Proof. vm_compute. reflexivity. Qed.

Example get_opts_missing_output :
  @DeconvolutionArgs.get_opts Demo.plain_numerals ["-i"; "a"; "-p"; "b"]
  = DeconvolutionArgs.Exit 2.
Proof. vm_compute. reflexivity. Qed.

Example get_opts_ambiguous_abbreviation :
  @DeconvolutionArgs.get_opts Demo.plain_numerals
    ["-i"; "a"; "-p"; "b"; "-o"; "c"; "--no"]
  = DeconvolutionArgs.Exit 2.
Proof. vm_compute. reflexivity. Qed.

Example get_opts_help :
  @DeconvolutionArgs.get_opts Demo.plain_numerals ["--help"]
  = DeconvolutionArgs.Exit 0.
Proof. vm_compute. reflexivity. Qed.

Module OperatorsTheory.

(** ** Method resolution *)

Lemma resolve_MX c :
  resolve c "MX"
  = match c with
    | StandardPSF | StandardPSFnoGrad => Some StandardPSF
    | PixelVariantPSF => Some PixelVariantPSF
    | _ => None
    end.
Proof. destruct c; vm_compute; reflexivity. Qed.

Lemma resolve_MtX c :
  resolve c "MtX"
  = match c with
    | StandardPSF | StandardPSFnoGrad => Some StandardPSF
    | PixelVariantPSF => Some PixelVariantPSF
    | _ => None
    end.
Proof. destruct c; vm_compute; reflexivity. Qed.

Lemma resolve_MtMX c :
  resolve c "MtMX"
  = match c with
    | PowerMethod => None
    | _ => Some GradBasic
    end.
Proof. destruct c; vm_compute; reflexivity. Qed.

Lemma resolve_get_grad c :
  resolve c "get_grad"
  = match c with
    | PowerMethod => None
    | GradZero | StandardPSFnoGrad => Some GradZero
    | _ => Some GradBasic
    end.
Proof. destruct c; vm_compute; reflexivity. Qed.

Lemma resolve_init c :
  resolve c "__init__"
  = match c with
    | GradBasic | GradZero => None
    | StandardPSF | StandardPSFnoGrad => Some StandardPSF
    | PixelVariantPSF => Some PixelVariantPSF
    | PowerMethod => Some PowerMethod
    end.
Proof. destruct c; vm_compute; reflexivity. Qed.

(** The depth-first order of classic classes picks the same functions as
    the C3 order, for every class and every method of the module. *)
Lemma resolve_classic_agrees c name :
  name ∈ ["__init__"; "MX"; "MtX"; "MtMX"; "get_grad"] →
  resolve_classic c name = resolve c name.
Proof.
  intros Hn. repeat (apply elem_of_cons in Hn as [->|Hn]);
    [destruct c; vm_compute; reflexivity ..|].
  by apply elem_of_nil in Hn.
Qed.

(** ** The state monad *)

Lemma follows_refl s : follows s s.
Proof. split; reflexivity. Qed.

Lemma follows_trans s1 s2 s3 : follows s1 s2 → follows s2 s3 → follows s1 s3.
Proof.
  intros [Hh1 Ha1] [Hh2 Ha2]. split; [by trans (heap s2) | congruence].
Qed.

Lemma follows_lookup s s' l v :
  follows s s' → heap s !! l = Some v → heap s' !! l = Some v.
Proof. intros [Hh _] Hl. by eapply lookup_weaken. Qed.

Lemma steady_ret {A} (a : A) : steady (mret a).
Proof. intros s. apply follows_refl. Qed.

Lemma steady_bind {A B} (m : M A) (f : A → M B) :
  steady m → (∀ a, steady (f a)) → steady (m ≫= f).
Proof.
  intros Hm Hf s. unfold mbind, M_bind. specialize (Hm s).
  destruct (m s) as [[a|e] s1]; simpl in *; [|done].
  eapply follows_trans; [exact Hm | apply Hf].
Qed.

Lemma steady_raise {A} e : steady (@raise A e).
Proof. intros s. apply follows_refl. Qed.

Lemma steady_lift {A} (r : result A) : steady (lift r).
Proof. intros s. apply follows_refl. Qed.

Lemma steady_getattr {A} name (field : instance → option A) :
  steady (getattr name field).
Proof. intros s. unfold getattr. destruct (field _); apply follows_refl. Qed.

Lemma steady_getmethod name : steady (getmethod name).
Proof. intros s. unfold getmethod. destruct (resolve _ _); apply follows_refl. Qed.

Lemma steady_deref l : steady (deref l).
Proof. intros s. unfold deref. destruct (_ !! _); apply follows_refl. Qed.

Lemma steady_alloc a : steady (alloc a).
Proof.
  intros s. split; [|done]. simpl.
  apply insert_subseteq, not_elem_of_dom, is_fresh.
Qed.

Lemma steady_log e : steady (log e).
Proof. intros s. split; done. Qed.

Lemma steady_set_grad g : steady (modify_self (set_grad g)).
Proof. intros s. split; done. Qed.

Create HintDb steady.

#[local] Hint Resolve steady_ret steady_raise steady_lift steady_getattr
  steady_getmethod steady_deref steady_alloc steady_log steady_set_grad
  : steady.

Ltac steady_step :=
  first [ apply steady_bind; [|intros ?]
        | case_decide
        | case_match
        | solve [auto with steady] ].

Ltac solve_steady := repeat steady_step.

Section Theory.
Context `{Collaborators}.

Lemma steady_call_psf_convolve x k rot pt df :
  steady (call_psf_convolve x k rot pt df).
Proof. unfold call_psf_convolve. solve_steady. Qed.

Lemma steady_call_pca_convolve x p c rot : steady (call_pca_convolve x p c rot).
Proof. unfold call_pca_convolve. solve_steady. Qed.

Lemma steady_call_pca_convolve_stack x p c rot :
  steady (call_pca_convolve_stack x p c rot).
Proof. unfold call_pca_convolve_stack. solve_steady. Qed.

Hint Resolve steady_call_psf_convolve steady_call_pca_convolve
  steady_call_pca_convolve_stack : steady.

Lemma steady_apply_MX c x : steady (apply_MX c x).
Proof.
  destruct c; simpl; auto with steady;
    unfold StandardPSF_MX, PixelVariantPSF_MX; solve_steady.
Qed.

Lemma steady_apply_MtX c x : steady (apply_MtX c x).
Proof.
  destruct c; simpl; auto with steady;
    unfold StandardPSF_MtX, PixelVariantPSF_MtX; solve_steady.
Qed.

Hint Resolve steady_apply_MX steady_apply_MtX : steady.

Lemma steady_MX x : steady (MX x).
Proof. unfold MX. solve_steady. Qed.

Lemma steady_MtX x : steady (MtX x).
Proof. unfold MtX. solve_steady. Qed.

Lemma steady_MtMX x : steady (MtMX x).
Proof. unfold MtMX, GradBasic_MtMX. solve_steady. Qed.

Lemma steady_subtract a b : steady (subtract a b).
Proof. unfold subtract. solve_steady. Qed.

Lemma steady_zeros_like_shape x : steady (zeros_like_shape x).
Proof. unfold zeros_like_shape. solve_steady. Qed.

Hint Resolve steady_subtract steady_zeros_like_shape : steady.

Lemma steady_get_grad x : steady (get_grad x).
Proof.
  unfold get_grad, GradBasic_get_grad, GradZero_get_grad.
  solve_steady.
Qed.

Lemma follows_perform k s : follows s (perform k s).
Proof.
  destruct k; simpl;
    [apply steady_MX | apply steady_MtX | apply steady_MtMX | apply steady_get_grad].
Qed.

Lemma reachable_follows c args h s :
  reachable c args h s →
  ∃ s0, construct c args h = Ok s0 ∧ follows s0 s.
Proof.
  induction 1 as [s Hs | s k _ (s0 & Hs0 & Hf)].
  - exists s. split; [done | apply follows_refl].
  - exists s0. split; [done|].
    eapply follows_trans; [exact Hf | apply follows_perform].
Qed.


Lemma reachable_built c args h s : reachable c args h s → built c args h s.
Proof. apply reachable_follows. Qed.

Lemma built_follows c args h s s' :
  built c args h s → follows s s' → built c args h s'.
Proof.
  intros (s0 & Hs0 & Hf) Hf'. exists s0. split; [done|].
  by eapply follows_trans.
Qed.

Lemma follows_attrs s s' :
  follows s s' →
  class_of (self s') = class_of (self s)
  ∧ self_y (self s') = self_y (self s)
  ∧ self_psf (self s') = self_psf (self s)
  ∧ self_psf_type (self s') = self_psf_type (self s)
  ∧ self_data_format (self s') = self_data_format (self s)
  ∧ self_psf_pcs (self s') = self_psf_pcs (self s)
  ∧ self_psf_coef (self s') = self_psf_coef (self s).
Proof.
  intros [_ Ha]. destruct (self s), (self s'). simpl in *.
  injection Ha as -> -> -> -> -> -> -> -> -> ->. done.
Qed.

(** ** What the constructors do *)


Lemma instantiate_standard c data psf psf_type data_format h :
  c = StandardPSF ∨ c = StandardPSFnoGrad →
  let pt := default "fixed" psf_type in
  let df := default "cube" data_format in
  let o := set_psf (Some psf) (set_y (Some data) (blank c)) in
  instantiate c (StandardArgs data psf psf_type data_format) h
  = if decide (pt ∈ ["fixed"; "obj_var"])
    then if decide (df ∈ ["map"; "cube"])
         then match h !! data with
              | Some vy =>
                  (Ok (),
                   {| self := standard_instance c data psf pt df vy;
                      heap := h;
                      trace := [Call_PowerMethod_init
                                  (BoundMethod GradBasic "MtMX") (shape vy)
                                  false] |})
              | None =>
                  (Raise (OtherError "dangling reference"),
                   {| self := set_data_format (Some df)
                                (set_psf_type (Some pt) o);
                      heap := h; trace := [] |})
              end
         else (Raise (ValueError "Invalid data type. Options are map or cube."),
               {| self := set_psf_type (Some pt) o; heap := h; trace := [] |})
    else (Raise (ValueError "Invalid PSF type. Options are fixed or obj_var"),
          {| self := o; heap := h; trace := [] |}).
Proof.
  intros Hc pt df o. unfold instantiate, init. simpl.
  rewrite resolve_init.
  assert (match c with
          | GradBasic | GradZero => None
          | StandardPSF | StandardPSFnoGrad => Some StandardPSF
          | PixelVariantPSF => Some PixelVariantPSF
          | PowerMethod => Some PowerMethod
          end = Some StandardPSF) as -> by (by destruct Hc as [-> | ->]).
  fold pt df. unfold StandardPSF_init, mbind, M_bind, modify_self, with_self.
  simpl. destruct (decide (pt ∈ _)); simpl; [|done].
  destruct (decide (df ∈ _)); simpl; [|done].
  unfold getmethod, getattr, deref, PowerMethod_init. simpl.
  rewrite resolve_MtMX.
  assert (match c with
          | PowerMethod => None
          | _ => Some GradBasic
          end = Some GradBasic) as -> by (by destruct Hc as [-> | ->]).
  simpl. destruct (h !! data); done.
Qed.



Lemma instantiate_pixel data psf_pcs psf_coef data_format h vp vc :
  h !! psf_pcs = Some vp →
  h !! psf_coef = Some vc →
  let df := default "map" data_format in
  let pcs := fresh (dom h) in
  let h1 := <[pcs:=vp]> h in
  let coef := fresh (dom h1) in
  let h2 := <[coef:=vc]> h1 in
  instantiate PixelVariantPSF (PixelArgs data psf_pcs psf_coef data_format) h
  = if decide (df ∈ ["map"; "cube"])
    then (Ok (),
          {| self := pixel_instance data pcs coef df vc;
             heap := h2;
             trace := [Call_PowerMethod_init (BoundMethod GradBasic "MtMX")
                         (drop 1 (shape vc)) false] |})
    else (Raise (ValueError PixelVariantPSF_invalid_format),
          {| self := set_psf_coef (Some coef)
                       (set_psf_pcs (Some pcs)
                          (set_y (Some data) (blank PixelVariantPSF)));
             heap := h2; trace := [] |}).
Proof.
  intros Hp Hc df pcs h1 coef h2. unfold instantiate, init.
  cbn [self class_of blank]. rewrite resolve_init. fold df.
  unfold PixelVariantPSF_init, np_array, mbind, M_bind, modify_self, with_self,
    deref, alloc.
  simpl. rewrite Hp. simpl. fold pcs h1.
  assert (h1 !! psf_coef = Some vc) as ->.
  { unfold h1. rewrite lookup_insert_ne; [done|].
    intros Heq. rewrite <- Heq in Hc.
    apply (is_fresh (dom h)), elem_of_dom. eexists. exact Hc. }
  simpl. fold coef h2.
  destruct (decide (df ∈ _)); simpl; [|done].
  unfold getmethod, getattr, PowerMethod_init, mbind, M_bind.
  simpl. unfold h2. rewrite lookup_insert_eq. done.
Qed.

Lemma built_standard c data psf psf_type data_format h s :
  c = StandardPSF ∨ c = StandardPSFnoGrad →
  built c (StandardArgs data psf psf_type data_format) h s →
  let pt := default "fixed" psf_type in
  let df := default "cube" data_format in
  pt ∈ ["fixed"; "obj_var"] ∧ df ∈ ["map"; "cube"]
  ∧ class_of (self s) = c
  ∧ self_y (self s) = Some data
  ∧ self_psf (self s) = Some psf
  ∧ self_psf_type (self s) = Some pt
  ∧ self_data_format (self s) = Some df
  ∧ h ⊆ heap s.
Proof.
  intros Hc (s0 & Hs0 & Hf) pt df. unfold construct in Hs0.
  rewrite instantiate_standard in Hs0 by done. fold pt df in Hs0.
  destruct (decide (pt ∈ _)); [|done].
  destruct (decide (df ∈ _)); [|done].
  destruct (h !! data) as [vy|]; [|done].
  injection Hs0 as <-.
  destruct (follows_attrs _ _ Hf) as (-> & -> & -> & -> & -> & _).
  destruct Hf as [Hh _]. done.
Qed.

Lemma built_pixel data psf_pcs psf_coef data_format h s vp vc :
  h !! psf_pcs = Some vp →
  h !! psf_coef = Some vc →
  built PixelVariantPSF (PixelArgs data psf_pcs psf_coef data_format) h s →
  let df := default "map" data_format in
  df ∈ ["map"; "cube"]
  ∧ class_of (self s) = PixelVariantPSF
  ∧ self_y (self s) = Some data
  ∧ self_data_format (self s) = Some df
  ∧ h ⊆ heap s
  ∧ ∃ pcs coef,
      self_psf_pcs (self s) = Some pcs ∧ self_psf_coef (self s) = Some coef
      ∧ heap s !! pcs = Some vp ∧ heap s !! coef = Some vc
      ∧ h !! pcs = None ∧ h !! coef = None.
Proof.
  intros Hp Hc (s0 & Hs0 & Hf) df. unfold construct in Hs0.
  rewrite (instantiate_pixel _ _ _ _ _ vp vc) in Hs0 by done. fold df in Hs0.
  destruct (decide (df ∈ _)); [|done].
  injection Hs0 as <-.
  destruct (follows_attrs _ _ Hf) as (-> & -> & _ & _ & -> & -> & ->).
  destruct Hf as [Hh _]. simpl in *.
  set (pcs := fresh (dom h)) in *.
  set (h1 := <[pcs:=vp]> h) in *.
  set (coef := fresh (dom h1)) in *.
  assert (h !! pcs = None) as Hpn by apply not_elem_of_dom, is_fresh.
  assert (h1 !! coef = None) as Hcn by apply not_elem_of_dom, is_fresh.
  assert (coef ≠ pcs) as Hne.
  { intros Heq. rewrite Heq in Hcn. unfold h1 in Hcn.
    by rewrite lookup_insert_eq in Hcn. }
  repeat split; try done.
  - trans h1; [by apply insert_subseteq|].
    trans (<[coef:=vc]> h1); [by apply insert_subseteq | done].
  - exists pcs, coef. repeat split; try done.
    + eapply lookup_weaken; [|exact Hh].
      rewrite lookup_insert_ne by done. apply lookup_insert_eq.
    + eapply lookup_weaken; [|exact Hh]. apply lookup_insert_eq.
    + unfold h1 in Hcn. by rewrite lookup_insert_ne in Hcn.
Qed.

(** ** Calls of the convolution routines *)

Lemma call_psf_convolve_run x k rot pt df s vx vk :
  heap s !! x = Some vx →
  heap s !! k = Some vk →
  call_psf_convolve x k rot pt df s
  = let t := trace s ++ [Call_psf_convolve x k rot pt df] in
    match psf_convolve vx vk rot pt df with
    | Ok v =>
        (Ok (fresh (dom (heap s))),
         {| self := self s; heap := <[fresh (dom (heap s)):=v]> (heap s);
            trace := t |})
    | Raise e => (Raise e, {| self := self s; heap := heap s; trace := t |})
    end.
Proof.
  intros Hx Hk. unfold call_psf_convolve, mbind, M_bind, log, deref, lift, alloc.
  simpl. rewrite Hx. simpl. rewrite Hk. simpl.
  by destruct (psf_convolve _ _ _ _ _).
Qed.

Lemma call_pca_convolve_run x p c rot s vx vp vc :
  heap s !! x = Some vx →
  heap s !! p = Some vp →
  heap s !! c = Some vc →
  call_pca_convolve x p c rot s
  = let t := trace s ++ [Call_pca_convolve x p c rot] in
    match pca_convolve vx vp vc rot with
    | Ok v =>
        (Ok (fresh (dom (heap s))),
         {| self := self s; heap := <[fresh (dom (heap s)):=v]> (heap s);
            trace := t |})
    | Raise e => (Raise e, {| self := self s; heap := heap s; trace := t |})
    end.
Proof.
  intros Hx Hp Hc.
  unfold call_pca_convolve, mbind, M_bind, log, deref, lift, alloc.
  simpl. rewrite Hx. simpl. rewrite Hp. simpl. rewrite Hc. simpl.
  by destruct (pca_convolve _ _ _ _).
Qed.

Lemma call_pca_convolve_stack_run x p c rot s vx vp vc :
  heap s !! x = Some vx →
  heap s !! p = Some vp →
  heap s !! c = Some vc →
  call_pca_convolve_stack x p c rot s
  = let t := trace s ++ [Call_pca_convolve_stack x p c rot] in
    match pca_convolve_stack vx vp vc rot with
    | Ok v =>
        (Ok (fresh (dom (heap s))),
         {| self := self s; heap := <[fresh (dom (heap s)):=v]> (heap s);
            trace := t |})
    | Raise e => (Raise e, {| self := self s; heap := heap s; trace := t |})
    end.
Proof.
  intros Hx Hp Hc.
  unfold call_pca_convolve_stack, mbind, M_bind, log, deref, lift, alloc.
  simpl. rewrite Hx. simpl. rewrite Hp. simpl. rewrite Hc. simpl.
  by destruct (pca_convolve_stack _ _ _ _).
Qed.



Lemma call_psf_convolve_outcome x k rot pt df s vx vk :
  heap s !! x = Some vx →
  heap s !! k = Some vk →
  call_psf_convolve x k rot pt df s
  = primitive_outcome (Call_psf_convolve x k rot pt df)
                      (psf_convolve vx vk rot pt df) s.
Proof.
  intros Hx Hk. rewrite (call_psf_convolve_run _ _ _ _ _ _ vx vk) by done.
  unfold primitive_outcome. by destruct (psf_convolve _ _ _ _ _).
Qed.

Lemma call_pca_convolve_outcome x p c rot s vx vp vc :
  heap s !! x = Some vx →
  heap s !! p = Some vp →
  heap s !! c = Some vc →
  call_pca_convolve x p c rot s
  = primitive_outcome (Call_pca_convolve x p c rot)
                      (pca_convolve vx vp vc rot) s.
Proof.
  intros Hx Hp Hc. rewrite (call_pca_convolve_run _ _ _ _ _ vx vp vc) by done.
  unfold primitive_outcome. by destruct (pca_convolve _ _ _ _).
Qed.

Lemma call_pca_convolve_stack_outcome x p c rot s vx vp vc :
  heap s !! x = Some vx →
  heap s !! p = Some vp →
  heap s !! c = Some vc →
  call_pca_convolve_stack x p c rot s
  = primitive_outcome (Call_pca_convolve_stack x p c rot)
                      (pca_convolve_stack vx vp vc rot) s.
Proof.
  intros Hx Hp Hc.
  rewrite (call_pca_convolve_stack_run _ _ _ _ _ vx vp vc) by done.
  unfold primitive_outcome. by destruct (pca_convolve_stack _ _ _ _).
Qed.

(** ** [MX] and [MtX] of the two families *)

Lemma standard_MX_MtX c data psf psf_type data_format h s x :
  c = StandardPSF ∨ c = StandardPSFnoGrad →
  built c (StandardArgs data psf psf_type data_format) h s →
  let pt := default "fixed" psf_type in
  let df := default "cube" data_format in
  MX x s = call_psf_convolve x psf false pt df s
  ∧ MtX x s = call_psf_convolve x psf true pt df s.
Proof.
  intros Hc Hb pt df.
  destruct (built_standard _ _ _ _ _ _ _ Hc Hb)
    as (_ & _ & Hcl & _ & Hk & Hpt & Hdf & _).
  fold pt df in Hpt, Hdf.
  unfold MX, MtX, mbind, M_bind, getmethod.
  rewrite resolve_MX, resolve_MtX, Hcl.
  assert (match c with
          | StandardPSF | StandardPSFnoGrad => Some StandardPSF
          | PixelVariantPSF => Some PixelVariantPSF
          | _ => None
          end = Some StandardPSF) as -> by (by destruct Hc as [-> | ->]).
  unfold apply_MX, apply_MtX, StandardPSF_MX, StandardPSF_MtX, mbind, M_bind,
    getattr.
  by rewrite Hk, Hpt, Hdf.
Qed.

Lemma pixel_MX_MtX data psf_pcs psf_coef data_format h s x vp vc :
  h !! psf_pcs = Some vp →
  h !! psf_coef = Some vc →
  built PixelVariantPSF (PixelArgs data psf_pcs psf_coef data_format) h s →
  ∃ pcs coef,
    self_psf_pcs (self s) = Some pcs ∧ self_psf_coef (self s) = Some coef
    ∧ heap s !! pcs = Some vp ∧ heap s !! coef = Some vc
    ∧ (default "map" data_format = "map" →
       MX x s = call_pca_convolve x pcs coef false s
       ∧ MtX x s = call_pca_convolve x pcs coef true s)
    ∧ (default "map" data_format = "cube" →
       MX x s = call_pca_convolve_stack x pcs coef false s
       ∧ MtX x s = call_pca_convolve_stack x pcs coef true s).
Proof.
  intros Hp Hc Hb.
  destruct (built_pixel _ _ _ _ _ _ _ _ Hp Hc Hb)
    as (_ & Hcl & _ & Hdf & _ & pcs & coef & Hpcs & Hcoef & Hvp & Hvc & _).
  exists pcs, coef. do 4 (split; [done|]).
  split; intros Hfmt; split;
    unfold MX, MtX, mbind, M_bind, getmethod;
    rewrite ?resolve_MX, ?resolve_MtX, Hcl;
    unfold apply_MX, apply_MtX, PixelVariantPSF_MX, PixelVariantPSF_MtX,
      mbind, M_bind, getattr;
    rewrite Hdf, Hfmt; simpl; by rewrite Hpcs, Hcoef.
Qed.



Lemma yields_outcome (m : M loc) ev r s :
  m s = primitive_outcome ev r s → yields m s r.
Proof.
  intros Hm. destruct r as [v|e]; simpl in *.
  - eexists _, _. split; [exact Hm|]. simpl. split.
    + apply lookup_insert_eq.
    + split; [|done]. simpl.
      apply insert_subseteq, not_elem_of_dom, is_fresh.
  - eexists. split; [exact Hm|]. split; done.
Qed.

Lemma built_args_match c args h s :
  built c args h s →
  match args with
  | StandardArgs _ _ _ _ => c = StandardPSF ∨ c = StandardPSFnoGrad
  | PixelArgs _ _ _ _ => c = PixelVariantPSF
  end.
Proof.
  intros (s0 & Hs0 & _). unfold construct, instantiate, init in Hs0.
  cbn [self class_of blank] in Hs0. rewrite resolve_init in Hs0.
  destruct c, args; simpl in Hs0; try done; auto.
Qed.

Lemma operator_yields c args h s x vx (rot : bool) :
  valid_refs args h →
  built c args h s →
  heap s !! x = Some vx →
  yields (if rot then MtX x else MX x) s (operator_map args h rot vx).
Proof.
  intros Hv Hb Hx. pose proof (built_args_match _ _ _ _ Hb) as Hc.
  destruct args as [data psf pt df | data pcs0 coef0 df]; simpl in Hv.
  - destruct Hv as [_ [vk Hk]].
    destruct (built_standard _ _ _ _ _ _ _ Hc Hb) as (_ & _ & _ & _ & _ & _ & _ & Hh).
    destruct (standard_MX_MtX _ _ _ _ _ _ _ x Hc Hb) as [HMX HMtX].
    assert (heap s !! psf = Some vk) as Hk' by by eapply lookup_weaken.
    unfold operator_map, fetch. rewrite Hk. simpl.
    destruct rot; eapply yields_outcome; [rewrite HMtX | rewrite HMX];
      by apply call_psf_convolve_outcome.
  - destruct Hv as (_ & [vp Hp] & [vc Hcf]). subst c.
    destruct (built_pixel _ _ _ _ _ _ _ _ Hp Hcf Hb) as (Hdf & _).
    destruct (pixel_MX_MtX _ _ _ _ _ _ x _ _ Hp Hcf Hb)
      as (pcs & coef & _ & _ & Hvp & Hvc & Hmap & Hcube).
    unfold operator_map, fetch. rewrite Hp, Hcf. simpl.
    destruct (decide (default "map" df = "map")) as [Hm|Hm].
    + destruct (Hmap Hm) as [HMX HMtX].
      destruct rot; eapply yields_outcome; [rewrite HMtX | rewrite HMX];
        by apply call_pca_convolve_outcome.
    + assert (default "map" df = "cube") as Hcu.
      { apply elem_of_cons in Hdf as [?|Hdf]; [done|].
        by apply list_elem_of_singleton in Hdf. }
      destruct (Hcube Hcu) as [HMX HMtX].
      destruct rot; eapply yields_outcome; [rewrite HMtX | rewrite HMX];
        by apply call_pca_convolve_stack_outcome.
Qed.

Lemma subtract_yields a b s va vb :
  heap s !! a = Some va →
  heap s !! b = Some vb →
  yields (subtract a b) s (np_sub va vb).
Proof.
  intros Ha Hb.
  assert (subtract a b s
          = match np_sub va vb with
            | Ok v => alloc v s
            | Raise e => (Raise e, s)
            end) as Hrun.
  { unfold subtract, mbind, M_bind, deref, lift. rewrite Ha. simpl.
    rewrite Hb. simpl. by destruct (np_sub va vb). }
  destruct (np_sub va vb) as [v|e]; simpl.
  - eexists _, _. split; [exact Hrun|]. simpl. split; [apply lookup_insert_eq|].
    apply steady_alloc.
  - eexists. split; [exact Hrun|]. apply follows_refl.
Qed.


Lemma built_observation c args h s :
  valid_refs args h →
  built c args h s →
  class_of (self s) = c
  ∧ self_y (self s) = Some (observation args)
  ∧ h ⊆ heap s.
Proof.
  intros Hv Hb. pose proof (built_args_match _ _ _ _ Hb) as Hc.
  destruct args as [data psf pt df | data pcs0 coef0 df]; simpl in *.
  - by destruct (built_standard _ _ _ _ _ _ _ Hc Hb)
      as (_ & _ & ? & ? & _ & _ & _ & ?).
  - destruct Hv as (_ & [vp Hp] & [vc Hcf]). subst c.
    by destruct (built_pixel _ _ _ _ _ _ _ _ Hp Hcf Hb)
      as (_ & ? & ? & _ & ? & _).
Qed.

(** ** The composed map and the gradient *)

Lemma get_grad_unfold s x :
  class_of (self s) = StandardPSF ∨ class_of (self s) = PixelVariantPSF →
  get_grad x s
  = (r ← MX x; yl ← getattr "y" self_y; d ← subtract r yl; g ← MtX d;
     modify_self (set_grad (Some g))) s.
Proof.
  intros Hc.
  assert (∃ c, resolve (class_of (self s)) "get_grad" = Some GradBasic
               ∧ resolve (class_of (self s)) "MX" = Some c
               ∧ resolve (class_of (self s)) "MtX" = Some c)
    as (c & Hgg & HMX & HMtX).
  { rewrite resolve_get_grad, resolve_MX, resolve_MtX.
    destruct Hc as [-> | ->]; eexists; eauto. }
  unfold get_grad, GradBasic_get_grad, MX, MtX, mbind, M_bind, getmethod.
  rewrite Hgg. cbv beta iota.
  unfold mbind, M_bind, getmethod.
  rewrite HMtX. cbv beta iota. rewrite !HMX. cbv beta iota.
  pose proof (steady_apply_MX c x s) as Hf1.
  destruct (apply_MX c x s) as [[r|e] s1]; [|done]. simpl in Hf1.
  pose proof (steady_getattr "y" self_y s1) as Hf2.
  destruct (getattr "y" self_y s1) as [[yl|e] s1']; [|done]. simpl in Hf2.
  pose proof (steady_subtract r yl s1') as Hf3.
  destruct (subtract r yl s1') as [[d|e] s2]; [|done]. simpl in Hf3.
  assert (follows s s2) as Hf by eauto using follows_trans.
  destruct (follows_attrs _ _ Hf) as (Hcl & _).
  by rewrite Hcl, HMtX.
Qed.


Lemma run_bind {A B} (m : M A) (f : A → M B) s :
  (m ≫= f) s
  = match m s with
    | (Ok a, s') => f a s'
    | (Raise e, s') => (Raise e, s')
    end.
Proof. reflexivity. Qed.

Lemma valid_refs_observation args h :
  valid_refs args h → is_Some (h !! observation args).
Proof. destruct args; simpl; tauto. Qed.

Lemma get_grad_gradient c args h s x vx :
  c = StandardPSF ∨ c = PixelVariantPSF →
  valid_refs args h →
  built c args h s →
  heap s !! x = Some vx →
  match gradient args h vx with
  | Ok v =>
      ∃ g s', get_grad x s = (Ok (), s')
              ∧ self_grad (self s') = Some g ∧ heap s' !! g = Some v
  | Raise e => ∃ s', get_grad x s = (Raise e, s')
  end.
Proof.
  intros Hc Hv Hb Hx.
  destruct (built_observation _ _ _ _ Hv Hb) as (Hcl & _ & _).
  rewrite get_grad_unfold by (by rewrite Hcl).
  destruct (valid_refs_observation _ _ Hv) as [vy Hy].
  unfold gradient, forward, adjoint, fetch. rewrite Hy.
  pose proof (operator_yields c args h s x vx false Hv Hb Hx) as H1.
  rewrite run_bind.
  destruct (operator_map args h false vx) as [m|e]; simpl in *;
    [destruct H1 as (l & s1 & -> & Hl & Hf1)
    |destruct H1 as (s1 & -> & _); by eexists].
  assert (built c args h s1) as Hb1 by by eapply built_follows.
  destruct (built_observation _ _ _ _ Hv Hb1) as (_ & Hy1 & Hh1).
  rewrite run_bind. unfold getattr. rewrite Hy1. cbv beta iota.
  assert (heap s1 !! observation args = Some vy) as Hy1'
    by by eapply lookup_weaken.
  pose proof (subtract_yields l (observation args) s1 m vy Hl Hy1') as H2.
  rewrite run_bind.
  destruct (np_sub m vy) as [d|e]; simpl in *;
    [destruct H2 as (ld & s2 & -> & Hld & Hf2)
    |destruct H2 as (s2 & -> & _); by eexists].
  assert (built c args h s2) as Hb2 by by eapply built_follows.
  pose proof (operator_yields c args h s2 ld d true Hv Hb2 Hld) as H3.
  rewrite run_bind.
  destruct (operator_map args h true d) as [v|e]; simpl in *;
    [destruct H3 as (g & s3 & -> & Hg & Hf3)
    |destruct H3 as (s3 & -> & _); by eexists].
  by eexists g, _.
Qed.

(** ** The zero gradient *)

Lemma GradZero_get_grad_run s x vx :
  heap s !! x = Some vx →
  GradZero_get_grad x s
  = (Ok (),
     {| self := set_grad (Some (fresh (dom (heap s)))) (self s);
        heap := <[fresh (dom (heap s)):=np_zeros (shape vx)]> (heap s);
        trace := trace s |}).
Proof.
  intros Hx.
  unfold GradZero_get_grad, zeros_like_shape, mbind, M_bind, deref.
  by rewrite Hx.
Qed.

Lemma np_zeros_all_zero sh :
  shape (np_zeros sh) = sh
  ∧ length (data (np_zeros sh)) = size sh
  ∧ Forall (λ e, e = 0%float) (data (np_zeros sh)).
Proof.
  split; [done|]. simpl. split; [apply length_replicate|].
  apply Forall_replicate. done.
Qed.


Lemma get_grad_zero s x vx :
  class_of (self s) = GradZero ∨ class_of (self s) = StandardPSFnoGrad →
  heap s !! x = Some vx →
  get_grad x s
  = (Ok (),
     {| self := set_grad (Some (fresh (dom (heap s)))) (self s);
        heap := <[fresh (dom (heap s)):=np_zeros (shape vx)]> (heap s);
        trace := trace s |}).
Proof.
  intros Hc Hx. unfold get_grad, mbind, M_bind, getmethod.
  rewrite resolve_get_grad.
  assert (match class_of (self s) with
          | PowerMethod => None
          | GradZero | StandardPSFnoGrad => Some GradZero
          | _ => Some GradBasic
          end = Some GradZero) as -> by (by destruct Hc as [-> | ->]).
  by apply GradZero_get_grad_run.
Qed.

(** ** The class without gradient *)

Lemma retag_blank c c' h :
  retag c {| self := blank c'; heap := h; trace := [] |}
  = {| self := blank c; heap := h; trace := [] |}.
Proof. reflexivity. Qed.

Lemma instantiate_retag args h :
  instantiate StandardPSFnoGrad args h
  = let '(r, s) := instantiate StandardPSF args h in
    (r, retag StandardPSFnoGrad s).
Proof.
  destruct args as [data psf pt df | data pcs coef df].
  - rewrite !instantiate_standard by auto. simpl.
    repeat case_decide; try done. by destruct (h !! data).
  - reflexivity.
Qed.

Lemma call_psf_convolve_retag c x k rot pt df s :
  call_psf_convolve x k rot pt df (retag c s)
  = let '(r, s') := call_psf_convolve x k rot pt df s in (r, retag c s').
Proof.
  unfold call_psf_convolve, mbind, M_bind, log, deref, lift, alloc. simpl.
  destruct (heap s !! x); simpl; [|done].
  destruct (heap s !! k); simpl; [|done].
  by destruct (psf_convolve _ _ _ _ _).
Qed.

Lemma standard_retag x s :
  class_of (self s) = StandardPSF →
  MX x (retag StandardPSFnoGrad s)
  = (let '(r, s') := MX x s in (r, retag StandardPSFnoGrad s'))
  ∧ MtX x (retag StandardPSFnoGrad s)
    = (let '(r, s') := MtX x s in (r, retag StandardPSFnoGrad s')).
Proof.
  intros Hc. unfold MX, MtX, mbind, M_bind, getmethod.
  rewrite !resolve_MX, !resolve_MtX, Hc. simpl.
  unfold StandardPSF_MX, StandardPSF_MtX, mbind, M_bind, getattr.
  destruct s as [[c k_y k_psf k_pt k_df k_pcs k_coef k_grad k_op k_sh k_norm] h t].
  cbn [retag with_self self self_psf self_psf_type self_data_format].
  destruct k_psf; [|by split].
  destruct k_pt; [|by split].
  destruct k_df; [|by split].
  split; apply call_psf_convolve_retag.
Qed.

(** ** The properties of the operators *)

(** C2 (gradient formula). For [StandardPSF] and [PixelVariantPSF], in
    every state of a constructed operator and for every array [x]:
    [get_grad(x)] is the composition [MtX(MX(x) - y)] of the two public
    methods followed by the assignment to [grad]; on array contents, when
    [adjoint(forward(x) - y)] is [v] the call returns and [grad] refers to
    an array with contents [v], and when it raises the call raises the
    same exception; and the call changes no existing array, [x]
    included. *)
Theorem get_grad_formula c args h s x vx :
  c = StandardPSF ∨ c = PixelVariantPSF →
  valid_refs args h →
  reachable c args h s →
  heap s !! x = Some vx →
  get_grad x s
  = (r ← MX x; yl ← getattr "y" self_y; d ← subtract r yl; g ← MtX d;
     modify_self (set_grad (Some g))) s
  ∧ match gradient args h vx with
    | Ok v =>
        ∃ g s', get_grad x s = (Ok (), s')
                ∧ self_grad (self s') = Some g ∧ heap s' !! g = Some v
    | Raise e => ∃ s', get_grad x s = (Raise e, s')
    end
  ∧ heap (get_grad x s).2 !! x = Some vx
  ∧ ∀ l v, heap s !! l = Some v → heap (get_grad x s).2 !! l = Some v.
Proof.
  intros Hc Hv Hr Hx. apply reachable_built in Hr.
  destruct (built_observation _ _ _ _ Hv Hr) as (Hcl & _ & _).
  split; [apply get_grad_unfold; by rewrite Hcl|].
  split; [by eapply get_grad_gradient|].
  pose proof (steady_get_grad x s) as Hf.
  split; [|intros l v Hl]; by eapply follows_lookup.
Qed.

(** C3 (composition consistency). For an object of any of the three
    operator classes, in any state, [MtMX(x)] is [MtX(MX(x))]: the same
    result, the same calls of the convolution routines in the same order
    and the same final state. *)
Theorem MtMX_composes s x :
  operator_class (class_of (self s)) →
  MtMX x s = (r ← MX x; MtX r) s.
Proof.
  intros Hop.
  assert (∃ k, resolve (class_of (self s)) "MX" = Some k
               ∧ resolve (class_of (self s)) "MtX" = Some k
               ∧ resolve (class_of (self s)) "MtMX" = Some GradBasic)
    as (k & HMX & HMtX & HMtMX).
  { rewrite resolve_MX, resolve_MtX, resolve_MtMX.
    destruct Hop as [-> | [-> | ->]]; eexists; eauto. }
  unfold MtMX, GradBasic_MtMX, MX, MtX, mbind, M_bind, getmethod.
  rewrite HMtMX. cbv beta iota.
  unfold mbind, M_bind, getmethod.
  rewrite HMtX. cbv beta iota. rewrite !HMX. cbv beta iota.
  pose proof (steady_apply_MX k x s) as Hf.
  destruct (apply_MX k x s) as [[r|e] s1]; [|done].
  destruct (follows_attrs _ _ Hf) as (Hcl & _). simpl in Hcl.
  by rewrite Hcl, HMtX.
Qed.

(** C4 (zero gradient). For a [GradZero] object in any state, whatever
    [y] is bound and whatever the convolution routines are,
    [get_grad(x)] returns, calls nothing, and binds [grad] to a new array
    that has the shape of [x] and only zeros. *)
Theorem GradZero_gradient_is_zero s x vx :
  class_of (self s) = GradZero →
  heap s !! x = Some vx →
  ∃ g,
    get_grad x s
    = (Ok (),
       {| self := set_grad (Some g) (self s);
          heap := <[g:=np_zeros (shape vx)]> (heap s);
          trace := trace s |})
    ∧ heap s !! g = None
    ∧ shape (np_zeros (shape vx)) = shape vx
    ∧ length (data (np_zeros (shape vx))) = size (shape vx)
    ∧ Forall (λ e, e = 0%float) (data (np_zeros (shape vx))).
Proof.
  intros Hc Hx. exists (fresh (dom (heap s))).
  split; [apply get_grad_zero; auto|].
  split; [apply not_elem_of_dom, is_fresh|].
  apply np_zeros_all_zero.
Qed.

(** C5 (construction validation). A [psf_type] other than [fixed] and
    [obj_var], or a [data_format] other than [map] and [cube], makes
    [StandardPSF.__init__] raise [ValueError]; a [data_format] other than
    [map] and [cube] makes [PixelVariantPSF.__init__] raise [ValueError].
    In each case the exception comes before the call of
    [PowerMethod.__init__] (the state at the raise is unregistered), and
    the constructor expression yields no object. *)
Theorem invalid_configuration_raises :
  (∀ c data psf psf_type data_format h,
     c = StandardPSF ∨ c = StandardPSFnoGrad →
     default "fixed" psf_type ∉ ["fixed"; "obj_var"] →
     let e := ValueError "Invalid PSF type. Options are fixed or obj_var" in
     let args := StandardArgs data psf psf_type data_format in
     (∃ s, instantiate c args h = (Raise e, s) ∧ unregistered s)
     ∧ construct c args h = Raise e)
  ∧ (∀ c data psf psf_type data_format h,
       c = StandardPSF ∨ c = StandardPSFnoGrad →
       default "fixed" psf_type ∈ ["fixed"; "obj_var"] →
       default "cube" data_format ∉ ["map"; "cube"] →
       let e := ValueError "Invalid data type. Options are map or cube." in
       let args := StandardArgs data psf psf_type data_format in
       (∃ s, instantiate c args h = (Raise e, s) ∧ unregistered s)
       ∧ construct c args h = Raise e)
  ∧ (∀ data psf_pcs psf_coef data_format h,
       is_Some (h !! psf_pcs) →
       is_Some (h !! psf_coef) →
       default "map" data_format ∉ ["map"; "cube"] →
       let e := ValueError PixelVariantPSF_invalid_format in
       let args := PixelArgs data psf_pcs psf_coef data_format in
       (∃ s, instantiate PixelVariantPSF args h = (Raise e, s)
             ∧ unregistered s)
       ∧ construct PixelVariantPSF args h = Raise e).
Proof.
  split; [|split].
  - intros c data psf pt df h Hc Hpt e args. unfold construct, args.
    rewrite instantiate_standard by done.
    rewrite decide_False by done. split; [|done]. by eexists.
  - intros c data psf pt df h Hc Hpt Hdf e args. unfold construct, args.
    rewrite instantiate_standard by done.
    rewrite decide_True, decide_False by done. split; [|done]. by eexists.
  - intros data pcs coef df h [vp Hp] [vc Hcf] Hdf e args.
    unfold construct, args.
    rewrite (instantiate_pixel _ _ _ _ _ vp vc) by done.
    rewrite decide_False by done. split; [|done]. by eexists.
Qed.

(** C6 (delegation of [StandardPSF]). In every state of a constructed
    [StandardPSF] (or [StandardPSFnoGrad]) operator, [MX(x)] is the call
    [psf_convolve(x, psf, psf_rot=False, psf_type, data_format)] and
    [MtX(x)] the same call with [psf_rot=True], with the kernel and the
    tags given to the constructor: the same call is recorded, and the
    result, a new array, is what [psf_convolve] returns on the contents
    of [x] and of the kernel (or its exception). *)
Theorem StandardPSF_delegates c data psf psf_type data_format h s x vx vk :
  c = StandardPSF ∨ c = StandardPSFnoGrad →
  reachable c (StandardArgs data psf psf_type data_format) h s →
  h !! psf = Some vk →
  heap s !! x = Some vx →
  let pt := default "fixed" psf_type in
  let df := default "cube" data_format in
  MX x s = call_psf_convolve x psf false pt df s
  ∧ MtX x s = call_psf_convolve x psf true pt df s
  ∧ MX x s = primitive_outcome (Call_psf_convolve x psf false pt df)
                               (psf_convolve vx vk false pt df) s
  ∧ MtX x s = primitive_outcome (Call_psf_convolve x psf true pt df)
                                (psf_convolve vx vk true pt df) s.
Proof.
  intros Hc Hr Hk Hx pt df. apply reachable_built in Hr.
  destruct (standard_MX_MtX _ _ _ _ _ _ _ x Hc Hr) as [HMX HMtX].
  destruct (built_standard _ _ _ _ _ _ _ Hc Hr)
    as (_ & _ & _ & _ & _ & _ & _ & Hh).
  assert (heap s !! psf = Some vk) as Hk' by by eapply lookup_weaken.
  split; [done|]. split; [done|].
  rewrite HMX, HMtX. split; by apply call_psf_convolve_outcome.
Qed.

(** C7 (format dispatch of [PixelVariantPSF]). In every state of a
    constructed [PixelVariantPSF] operator, the attributes [psf_pcs] and
    [psf_coef] refer to copies of the constructor's arrays, and with
    format [map] the methods [MX(x)] and [MtX(x)] are the calls
    [pca_convolve(x, psf_pcs, psf_coef, pcs_rot)] with [pcs_rot=False]
    and [pcs_rot=True], with format [cube] the calls of
    [pca_convolve_stack] with the same arguments and flags. *)
Theorem PixelVariantPSF_dispatch data psf_pcs psf_coef data_format h s x
    vx vp vc :
  reachable PixelVariantPSF (PixelArgs data psf_pcs psf_coef data_format) h s →
  h !! psf_pcs = Some vp →
  h !! psf_coef = Some vc →
  heap s !! x = Some vx →
  ∃ pcs coef,
    self_psf_pcs (self s) = Some pcs ∧ self_psf_coef (self s) = Some coef
    ∧ heap s !! pcs = Some vp ∧ heap s !! coef = Some vc
    ∧ (default "map" data_format = "map" →
       MX x s = primitive_outcome (Call_pca_convolve x pcs coef false)
                                  (pca_convolve vx vp vc false) s
       ∧ MtX x s = primitive_outcome (Call_pca_convolve x pcs coef true)
                                     (pca_convolve vx vp vc true) s)
    ∧ (default "map" data_format = "cube" →
       MX x s = primitive_outcome (Call_pca_convolve_stack x pcs coef false)
                                  (pca_convolve_stack vx vp vc false) s
       ∧ MtX x s = primitive_outcome (Call_pca_convolve_stack x pcs coef true)
                                     (pca_convolve_stack vx vp vc true) s).
Proof.
  intros Hr Hp Hc Hx. apply reachable_built in Hr.
  destruct (pixel_MX_MtX _ _ _ _ _ _ x _ _ Hp Hc Hr)
    as (pcs & coef & Hpcs & Hcoef & Hvp & Hvc & Hmap & Hcube).
  exists pcs, coef. do 4 (split; [done|]).
  split; intros Hfmt.
  - destruct (Hmap Hfmt) as [-> ->].
    split; by apply call_pca_convolve_outcome.
  - destruct (Hcube Hfmt) as [-> ->].
    split; by apply call_pca_convolve_stack_outcome.
Qed.

(** C8 (lazy registration). A successful construction calls
    [PowerMethod.__init__] exactly once, with the bound method [MtMX]
    (the composed map of [GradBasic]) and [auto_run=False], and calls
    nothing else; the norm is not computed: the cached norm stays unset
    and the power iteration [get_spec_rad], whatever it is, does not
    run. [StandardPSF] registers the shape of the data [y],
    [PixelVariantPSF] the shape of the coefficient array without its
    first axis. *)
Theorem registration_is_lazy :
  (∀ c data psf psf_type data_format h s,
     c = StandardPSF ∨ c = StandardPSFnoGrad →
     construct c (StandardArgs data psf psf_type data_format) h = Ok s →
     ∃ vy, h !! data = Some vy
       ∧ trace s = [Call_PowerMethod_init (BoundMethod GradBasic "MtMX")
                      (shape vy) false]
       ∧ pm_operator (self s) = Some (BoundMethod GradBasic "MtMX")
       ∧ pm_shape (self s) = Some (shape vy)
       ∧ pm_norm (self s) = None
       ∧ heap s = h)
  ∧ (∀ data psf_pcs psf_coef data_format h s vp vc,
       h !! psf_pcs = Some vp →
       h !! psf_coef = Some vc →
       construct PixelVariantPSF
                 (PixelArgs data psf_pcs psf_coef data_format) h = Ok s →
       trace s = [Call_PowerMethod_init (BoundMethod GradBasic "MtMX")
                    (drop 1 (shape vc)) false]
       ∧ pm_operator (self s) = Some (BoundMethod GradBasic "MtMX")
       ∧ pm_shape (self s) = Some (drop 1 (shape vc))
       ∧ pm_norm (self s) = None)
  ∧ (∀ c, operator_class c → resolve c "MtMX" = Some GradBasic).
Proof.
  split; [|split].
  - intros c data psf pt df h s Hc. unfold construct.
    rewrite instantiate_standard by done.
    repeat case_decide; try done.
    destruct (h !! data) as [vy|]; [|done].
    intros [= <-]. by exists vy.
  - intros data pcs coef df h s vp vc Hp Hcf. unfold construct.
    rewrite (instantiate_pixel _ _ _ _ _ vp vc) by done.
    case_decide; [|done]. by intros [= <-].
  - intros c Hc. rewrite resolve_MtMX. by destruct Hc as [-> | [-> | ->]].
Qed.

(** C9 (operator without gradient). [StandardPSFnoGrad] is constructed
    exactly as [StandardPSF] is; its [MX] and [MtX] do what those of a
    [StandardPSF] object with the same attributes do; its [get_grad(x)]
    binds [grad] to zeros of the shape of [x] and calls nothing, because
    [get_grad] resolves to [GradZero] while [MX], [MtX] and [__init__]
    resolve to [StandardPSF], under the C3 order and under the
    depth-first order of classic classes alike. *)
Theorem StandardPSFnoGrad_substitutes :
  (∀ args h,
     instantiate StandardPSFnoGrad args h
     = let '(r, s) := instantiate StandardPSF args h in
       (r, retag StandardPSFnoGrad s))
  ∧ (∀ s x,
       class_of (self s) = StandardPSF →
       MX x (retag StandardPSFnoGrad s)
       = (let '(r, s') := MX x s in (r, retag StandardPSFnoGrad s'))
       ∧ MtX x (retag StandardPSFnoGrad s)
         = (let '(r, s') := MtX x s in (r, retag StandardPSFnoGrad s')))
  ∧ (∀ s x vx,
       class_of (self s) = StandardPSFnoGrad →
       heap s !! x = Some vx →
       get_grad x s
       = (Ok (),
          {| self := set_grad (Some (fresh (dom (heap s)))) (self s);
             heap := <[fresh (dom (heap s)):=np_zeros (shape vx)]> (heap s);
             trace := trace s |})
       ∧ shape (np_zeros (shape vx)) = shape vx
       ∧ Forall (λ e, e = 0%float) (data (np_zeros (shape vx))))
  ∧ (∀ order, order = resolve ∨ order = resolve_classic →
       order StandardPSFnoGrad "get_grad" = Some GradZero
       ∧ order StandardPSFnoGrad "MX" = Some StandardPSF
       ∧ order StandardPSFnoGrad "MtX" = Some StandardPSF
       ∧ order StandardPSFnoGrad "__init__" = Some StandardPSF
       ∧ order StandardPSFnoGrad "MtMX" = Some GradBasic).
Proof.
  split; [apply instantiate_retag|].
  split; [intros s x Hc; by apply standard_retag|].
  split.
  - intros s x vx Hc Hx. split; [apply get_grad_zero; auto|].
    destruct (np_zeros_all_zero (shape vx)) as (? & _ & ?). done.
  - intros order [-> | ->]; repeat split; vm_compute; reflexivity.
Qed.

End Theory.

(** ** The theorems at concrete operators *)

#[local] Existing Instance Demo.single_pixel_kernels.

Lemma get_grad_formula_witness :
  (StandardPSF = StandardPSF ∨ StandardPSF = PixelVariantPSF)
  ∧ valid_refs Demo.standard_args Demo.arrays
  ∧ reachable StandardPSF Demo.standard_args Demo.arrays
              (Demo.new StandardPSF Demo.standard_args)
  ∧ heap (get_grad 1%positive (Demo.new StandardPSF Demo.standard_args)).2
      !! 1%positive
    = Some (NdArray [2; 2] [1; 2; 3; 4]%float).
Proof.
  assert (reachable StandardPSF Demo.standard_args Demo.arrays
            (Demo.new StandardPSF Demo.standard_args)) as Hr
    by (apply reach_new; vm_compute; reflexivity).
  assert (valid_refs Demo.standard_args Demo.arrays) as Hv
    by (split; eexists; vm_compute; reflexivity).
  split; [by left|]. split; [exact Hv|]. split; [exact Hr|].
  refine (proj1 (proj2 (proj2
    (get_grad_formula StandardPSF Demo.standard_args Demo.arrays
       (Demo.new StandardPSF Demo.standard_args) 1%positive
       (NdArray [2; 2] [1; 2; 3; 4]%float) (or_introl eq_refl) Hv Hr _)))).
  vm_compute; reflexivity.
Defined.

Lemma MtMX_composes_witness :
  operator_class (class_of (self (Demo.new PixelVariantPSF Demo.pixel_args)))
  ∧ MtMX 1%positive (Demo.new PixelVariantPSF Demo.pixel_args)
    = (r ← MX 1%positive; MtX r) (Demo.new PixelVariantPSF Demo.pixel_args).
Proof.
  assert (operator_class
            (class_of (self (Demo.new PixelVariantPSF Demo.pixel_args))))
    as Hc by (right; right; vm_compute; reflexivity).
  split; [exact Hc|]. exact (MtMX_composes _ 1%positive Hc).
Defined.

Lemma GradZero_gradient_is_zero_witness :
  class_of (self Demo.zero) = GradZero
  ∧ Demo.arrays !! 1%positive = Some (NdArray [2; 2] [1; 2; 3; 4]%float)
  ∧ ∃ g,
      get_grad 1%positive Demo.zero
      = (Ok (),
         {| self := set_grad (Some g) (self Demo.zero);
            heap := <[g:=np_zeros [2; 2]]> Demo.arrays;
            trace := [] |})
      ∧ heap Demo.zero !! g = None
      ∧ shape (np_zeros [2; 2]) = [2; 2]
      ∧ length (data (np_zeros [2; 2])) = size [2; 2]
      ∧ Forall (λ e, e = 0%float) (data (np_zeros [2; 2])).
Proof.
  assert (Demo.arrays !! 1%positive = Some (NdArray [2; 2] [1; 2; 3; 4]%float))
    as Hx by (vm_compute; reflexivity).
  split; [reflexivity|]. split; [exact Hx|].
  exact (GradZero_gradient_is_zero Demo.zero 1%positive
           (NdArray [2; 2] [1; 2; 3; 4]%float) eq_refl Hx).
Defined.

Lemma invalid_configuration_raises_witness :
  (default "fixed" (Some "bogus") ∉ ["fixed"; "obj_var"])
  ∧ construct StandardPSF
      (StandardArgs 1%positive 2%positive (Some "bogus") None) Demo.arrays
    = Raise (ValueError "Invalid PSF type. Options are fixed or obj_var")
  ∧ (default "cube" (Some "bogus") ∉ ["map"; "cube"])
  ∧ construct StandardPSF
      (StandardArgs 1%positive 2%positive None (Some "bogus")) Demo.arrays
    = Raise (ValueError "Invalid data type. Options are map or cube.")
  ∧ (default "map" (Some "bogus") ∉ ["map"; "cube"])
  ∧ construct PixelVariantPSF
      (PixelArgs 1%positive 3%positive 4%positive (Some "bogus")) Demo.arrays
    = Raise (ValueError PixelVariantPSF_invalid_format).
Proof.
  assert (default "fixed" (Some "bogus") ∉ ["fixed"; "obj_var"]) as H1
    by (apply (bool_decide_unpack _); vm_compute; exact I).
  assert (default "cube" (Some "bogus") ∉ ["map"; "cube"]) as H2
    by (apply (bool_decide_unpack _); vm_compute; exact I).
  assert (default "fixed" None ∈ ["fixed"; "obj_var"]) as H3 by (by left).
  destruct (@invalid_configuration_raises Demo.single_pixel_kernels)
    as (Ht & Hf & Hp).
  split; [exact H1|].
  split; [exact (proj2 (Ht StandardPSF 1%positive 2%positive (Some "bogus")
                          None Demo.arrays (or_introl eq_refl) H1))|].
  split; [exact H2|].
  split; [exact (proj2 (Hf StandardPSF 1%positive 2%positive None
                          (Some "bogus") Demo.arrays (or_introl eq_refl)
                          H3 H2))|].
  split; [exact H2|].
  refine (proj2 (Hp 1%positive 3%positive 4%positive (Some "bogus")
                    Demo.arrays _ _ H2)); eexists; vm_compute; reflexivity.
Defined.

Lemma StandardPSF_delegates_witness :
  reachable StandardPSF Demo.standard_args Demo.arrays
            (Demo.new StandardPSF Demo.standard_args)
  ∧ MX 1%positive (Demo.new StandardPSF Demo.standard_args)
    = call_psf_convolve 1%positive 2%positive false "fixed" "map"
        (Demo.new StandardPSF Demo.standard_args).
Proof.
  assert (reachable StandardPSF Demo.standard_args Demo.arrays
            (Demo.new StandardPSF Demo.standard_args)) as Hr
    by (apply reach_new; vm_compute; reflexivity).
  split; [exact Hr|].
  refine (proj1 (StandardPSF_delegates StandardPSF 1%positive 2%positive
                   (Some "fixed") (Some "map") Demo.arrays _ 1%positive
                   (NdArray [2; 2] [1; 2; 3; 4]%float)
                   (NdArray [1; 1] [2]%float) (or_introl eq_refl) Hr _ _));
    vm_compute; reflexivity.
Defined.

Lemma PixelVariantPSF_dispatch_witness :
  reachable PixelVariantPSF Demo.pixel_args Demo.arrays
            (Demo.new PixelVariantPSF Demo.pixel_args)
  ∧ ∃ pcs coef,
      self_psf_pcs (self (Demo.new PixelVariantPSF Demo.pixel_args)) = Some pcs
      ∧ self_psf_coef (self (Demo.new PixelVariantPSF Demo.pixel_args))
        = Some coef
      ∧ MX 1%positive (Demo.new PixelVariantPSF Demo.pixel_args)
        = primitive_outcome (Call_pca_convolve 1%positive pcs coef false)
            (Ok (NdArray [2; 2] [3; 6; 9; 12]%float))
            (Demo.new PixelVariantPSF Demo.pixel_args).
Proof.
  assert (reachable PixelVariantPSF Demo.pixel_args Demo.arrays
            (Demo.new PixelVariantPSF Demo.pixel_args)) as Hr
    by (apply reach_new; vm_compute; reflexivity).
  split; [exact Hr|].
  destruct (PixelVariantPSF_dispatch 1%positive 3%positive 4%positive None
              Demo.arrays _ 1%positive
              (NdArray [2; 2] [1; 2; 3; 4]%float)
              (NdArray [1; 1; 1] [3]%float)
              (NdArray [1; 2; 2] [1; 1; 1; 1]%float) Hr)
    as (pcs & coef & Hpcs & Hcoef & _ & _ & Hmap & _);
    [vm_compute; reflexivity ..|].
  exists pcs, coef. split; [exact Hpcs|]. split; [exact Hcoef|].
  exact (proj1 (Hmap eq_refl)).
Defined.

Lemma registration_is_lazy_witness :
  construct StandardPSF Demo.standard_args Demo.arrays
  = Ok (Demo.new StandardPSF Demo.standard_args)
  ∧ pm_shape (self (Demo.new StandardPSF Demo.standard_args)) = Some [2; 2]
  ∧ pm_norm (self (Demo.new StandardPSF Demo.standard_args)) = None
  ∧ construct PixelVariantPSF Demo.pixel_args Demo.arrays
    = Ok (Demo.new PixelVariantPSF Demo.pixel_args)
  ∧ pm_shape (self (Demo.new PixelVariantPSF Demo.pixel_args)) = Some [2; 2]
  ∧ resolve PixelVariantPSF "MtMX" = Some GradBasic.
Proof.
  assert (construct StandardPSF Demo.standard_args Demo.arrays
          = Ok (Demo.new StandardPSF Demo.standard_args)) as Hs
    by (vm_compute; reflexivity).
  assert (construct PixelVariantPSF Demo.pixel_args Demo.arrays
          = Ok (Demo.new PixelVariantPSF Demo.pixel_args)) as Hp
    by (vm_compute; reflexivity).
  destruct (@registration_is_lazy Demo.single_pixel_kernels)
    as (Hst & Hpx & Hop).
  split; [exact Hs|].
  destruct (Hst StandardPSF 1%positive 2%positive (Some "fixed") (Some "map")
              Demo.arrays _ (or_introl eq_refl) Hs)
    as (vy & Hy & _ & _ & Hsh & Hn & _).
  assert (vy = NdArray [2; 2] [1; 2; 3; 4]%float) as ->
    by (vm_compute in Hy; congruence).
  split; [exact Hsh|]. split; [exact Hn|]. split; [exact Hp|].
  split.
  - refine (proj1 (proj2 (proj2
      (Hpx 1%positive 3%positive 4%positive None Demo.arrays _
           (NdArray [1; 1; 1] [3]%float)
           (NdArray [1; 2; 2] [1; 1; 1; 1]%float) _ _ Hp))));
      vm_compute; reflexivity.
  - apply Hop. right; right; reflexivity.
Defined.

Lemma StandardPSFnoGrad_substitutes_witness :
  class_of (self (Demo.new StandardPSFnoGrad Demo.standard_args))
  = StandardPSFnoGrad
  ∧ Demo.new StandardPSFnoGrad Demo.standard_args
    = retag StandardPSFnoGrad (Demo.new StandardPSF Demo.standard_args)
  ∧ ∃ g,
      get_grad 1%positive (Demo.new StandardPSFnoGrad Demo.standard_args)
      = (Ok (),
         {| self := set_grad (Some g)
                      (self (Demo.new StandardPSFnoGrad Demo.standard_args));
            heap := <[g:=np_zeros [2; 2]]> Demo.arrays;
            trace := trace (Demo.new StandardPSFnoGrad Demo.standard_args) |}).
Proof.
  destruct (@StandardPSFnoGrad_substitutes Demo.single_pixel_kernels)
    as (_ & _ & Hgrad & _).
  assert (class_of (self (Demo.new StandardPSFnoGrad Demo.standard_args))
          = StandardPSFnoGrad) as Hc by (vm_compute; reflexivity).
  split; [exact Hc|]. split; [vm_compute; reflexivity|].
  eexists.
  refine (proj1 (Hgrad (Demo.new StandardPSFnoGrad Demo.standard_args)
                   1%positive (NdArray [2; 2] [1; 2; 3; 4]%float) Hc _)).
  vm_compute; reflexivity.
Defined.

End OperatorsTheory.

Import DeconvolutionArgs.

Module OptionsTheory.

(** ** Strings *)

Lemma split_at_spec c t o e :
  split_at c t = Some (o, e) → t = o +:+ String c e.
Proof.
  revert o. induction t as [|b t IH]; intros o Hs; simpl in Hs; [done|].
  destruct (Ascii.eqb c b) eqn:Hcb.
  - apply Ascii.eqb_eq in Hcb as ->. by injection Hs as <- <-.
  - destruct (split_at c t) as [[o' e']|]; simpl in Hs; [|done].
    injection Hs as <- <-. by rewrite (IH o' eq_refl) at 1.
Qed.

Lemma prefix_empty s : String.prefix "" s = true.
Proof. by destruct s. Qed.

Lemma prefix_app s a b :
  String.prefix s a = true → String.prefix s (a +:+ b) = true.
Proof.
  revert a. induction s as [|c s IH]; intros a Hp; [apply prefix_empty|].
  destruct a as [|c' a]; simpl in *; [done|].
  destruct (ascii_dec c c'); [by apply IH | done].
Qed.

Lemma prefix_trans s p t :
  String.prefix s p = true → String.prefix p t = true →
  String.prefix s t = true.
Proof.
  revert p t.
  induction s as [|c s IH]; intros p t Hsp Hpt; [apply prefix_empty|].
  destruct p as [|c1 p]; simpl in Hsp; [done|].
  destruct t as [|c2 t]; simpl in *; [done|].
  destruct (ascii_dec c c1) as [->|]; [|done].
  destruct (ascii_dec c1 c2); [by eapply IH | done].
Qed.

Lemma prefix_prefixes p s : String.prefix p s = true → p ∈ prefixes s.
Proof.
  revert p. induction s as [|c s IH]; intros p Hp.
  - destruct p; [by left | done].
  - destruct p as [|c' p]; [by left|]. simpl in *. right.
    destruct (ascii_dec c' c) as [->|]; [|done].
    apply list_elem_of_fmap. exists p. split; [done | by apply IH].
Qed.

Lemma find_option_elem parser o a :
  find_option parser o = Some a → a ∈ parser ∧ o ∈ option_strings a.
Proof.
  unfold find_option. intros Hh. apply head_Some_elem_of in Hh.
  by apply list_elem_of_filter in Hh as [? ?].
Qed.

Lemma abbreviations_elem parser p a o :
  (a, o) ∈ abbreviations parser p →
  a ∈ parser ∧ o ∈ option_strings a ∧ String.prefix p o = true.
Proof.
  unfold abbreviations. intros Hin.
  apply list_elem_of_bind in Hin as (a' & Hin & Ha').
  apply list_elem_of_fmap in Hin as (o' & [= -> ->] & Ho').
  by apply list_elem_of_filter in Ho' as [? ?].
Qed.

Lemma parse_optional_in_parser parser t k :
  parse_optional parser t = Parsed k → in_parser parser k.
Proof.
  unfold parse_optional. intros Hk.
  repeat case_match; simplify_eq; simpl; try done.
  - by eapply find_option_elem.
  - match goal with H : _ ≫= _ = Some _ |- _ => rename H into Hs end.
    destruct (split_at "=" t) as [[o' e']|]; simpl in Hs; [|done].
    destruct (find_option parser o') eqn:Hf; simplify_eq/=.
    by eapply find_option_elem.
  - match goal with H : abbreviations _ _ = _ |- _ => rename H into Hab end.
    eapply (abbreviations_elem parser _ _ _). rewrite Hab. by left.
Qed.

Lemma classify_spec parser argv toks :
  classify parser argv = Parsed toks →
  Forall2 (λ t k, parse_optional parser t = Parsed k) argv toks.
Proof.
  revert toks. induction argv as [|t argv IH]; intros toks Hc; simpl in Hc.
  - injection Hc as <-. constructor.
  - destruct (parse_optional parser t) as [k| |] eqn:Hk; simpl in Hc; try done.
    destruct (classify parser argv) as [ks| |]; simpl in Hc; try done.
    injection Hc as <-. constructor; [done | by apply IH].
Qed.

Section Flag.
Context `{PyBuiltins}.
Variables (flag d : string) (on : bool).
Hypothesis Hflag : is_flag flag d on.

Lemma row a : a ∈ get_opts_parser → flag_row flag d on a = true.
Proof.
  intros Ha. destruct Hflag as [Hall _].
  rewrite forallb_forall in Hall. by apply Hall, list_elem_of_In.
Qed.

Lemma row_hit a :
  a ∈ get_opts_parser → flag ∈ option_strings a →
  a_dest a = Some d ∧ option_strings a = [flag]
  ∧ a_action a = (if on then store_true else store_false).
Proof.
  intros Ha Hf. pose proof (row a Ha) as Hr. unfold flag_row in Hr.
  rewrite bool_decide_eq_true_2 in Hr by done.
  apply andb_true_iff in Hr as [Hr Hact].
  apply andb_true_iff in Hr as [Hd Ho].
  apply bool_decide_eq_true in Hd, Ho. repeat split; try done.
  by destruct (a_action a), on.
Qed.

Lemma row_miss a :
  a ∈ get_opts_parser → flag ∉ option_strings a → a_dest a ≠ Some d.
Proof.
  intros Ha Hf. pose proof (row a Ha) as Hr. unfold flag_row in Hr.
  rewrite bool_decide_eq_false_2 in Hr by done.
  by apply negb_true_iff, bool_decide_eq_false in Hr.
Qed.

Lemma store_miss a :
  a ∈ get_opts_parser → a_action a = store → flag ∉ option_strings a.
Proof.
  intros Ha Hs Hf. destruct (row_hit a Ha Hf) as (_ & _ & Hact).
  rewrite Hs in Hact. by destruct on.
Qed.

Lemma take_action_hit a args st st' :
  a ∈ get_opts_parser → flag ∈ option_strings a →
  take_action a args st = Parsed st' →
  ns st' !! d = Some (VBool on).
Proof.
  intros Ha Hf. destruct (row_hit a Ha Hf) as (Hd & _ & Hact).
  unfold take_action. rewrite Hact.
  destruct on; intros [= <-]; unfold setattr; simpl; rewrite Hd;
    apply lookup_insert_eq.
Qed.

Lemma setattr_miss a v st :
  a_dest a ≠ Some d → ns (setattr a v st) !! d = ns st !! d.
Proof.
  intros Hd. unfold setattr. simpl. destruct (a_dest a) as [d'|]; [|done].
  apply lookup_insert_ne. congruence.
Qed.

Lemma take_action_miss a args st st' :
  a ∈ get_opts_parser → flag ∉ option_strings a →
  take_action a args st = Parsed st' →
  ns st' !! d = ns st !! d.
Proof.
  intros Ha Hf. pose proof (row_miss a Ha Hf) as Hd.
  unfold take_action. intros Ht.
  repeat case_match; simplify_eq; by apply setattr_miss.
Qed.

#[local] Abbreviation flag_value := (flag_state flag on).
#[local] Abbreviation inv := (flag_invariant flag d on).

Lemma flush_keeps p st st' :
  collecting p → flush p st = Parsed st' → ns st' !! d = ns st !! d.
Proof.
  destruct p as [|a args]; simpl.
  - by intros _ [= <-].
  - intros [Ha Hs] Hf. destruct args; [done|].
    eapply take_action_miss; [done | by apply store_miss | done].
Qed.

Lemma flag_value_miss seen_toks k :
  hit flag k = false → flag_value (seen_toks ++ [k]) = flag_value seen_toks.
Proof.
  intros Hk. unfold flag_state. rewrite existsb_app. simpl.
  by rewrite Hk, !orb_false_r.
Qed.

Lemma flag_value_hit seen_toks k :
  hit flag k = true → flag_value (seen_toks ++ [k]) = VBool on.
Proof.
  intros Hk. unfold flag_state. rewrite existsb_app. simpl.
  by rewrite Hk, orb_true_r.
Qed.

Lemma consume_inv seen_toks ps k ps' :
  in_parser get_opts_parser k →
  inv seen_toks ps →
  consume ps k = Parsed ps' →
  inv (seen_toks ++ [k]) ps'.
Proof.
  destruct ps as [p st]. intros Hk [Hv Hp] Hc. unfold flag_invariant. simpl in *.
  destruct k as [s | a opt ex | s]; simpl in *.
  - rewrite flag_value_miss by done.
    destruct p as [|a args]; [by simplify_eq|].
    destruct Hp as [Ha Hs].
    destruct (a_nargs a); [|by simplify_eq].
    destruct (take_action a [s] st) as [st1| |] eqn:Ht; simplify_eq/=.
    split; [|done]. rewrite <- Hv.
    eapply take_action_miss; [done | by apply store_miss | done].
  - destruct (flush p st) as [st1| |] eqn:Hfl; simplify_eq/=.
    pose proof (flush_keeps _ _ _ Hp Hfl) as Hst1. rewrite Hv in Hst1.
    destruct (decide (flag ∈ option_strings a)) as [Hf|Hf].
    + rewrite flag_value_hit by (by apply bool_decide_eq_true).
      destruct (row_hit a Hk Hf) as (_ & _ & Hact).
      rewrite Hact in Hc.
      destruct ex as [e|]; [destruct on; by case_match|].
      assert (take_action a [] st1 ≫= (λ st2, Parsed (Idle, st2))
              = Parsed ps') as Hc' by (by destruct on).
      destruct (take_action a [] st1) as [st2| |] eqn:Ht; simplify_eq/=.
      split; [by eapply take_action_hit | done].
    + rewrite flag_value_miss by (by apply bool_decide_eq_false).
      destruct (a_action a) eqn:Hact, ex as [e|]; simplify_eq/=;
        try (by case_match);
        try (by split);
        match goal with
        | Hc : context [take_action a ?args st1] |- _ =>
            destruct (take_action a args st1) as [st2| |] eqn:Ht;
            simplify_eq/=; split; [|done]; rewrite <- Hst1;
            by eapply take_action_miss
        end.
  - rewrite flag_value_miss by done.
    destruct (flush p st) as [st1| |] eqn:Hfl; simplify_eq/=.
    split; [|done]. rewrite <- Hv. by eapply flush_keeps.
Qed.

Lemma consume_all_inv toks seen_toks ps ps' :
  Forall (in_parser get_opts_parser) toks →
  inv seen_toks ps →
  consume_all ps toks = Parsed ps' →
  inv (seen_toks ++ toks) ps'.
Proof.
  revert seen_toks ps.
  induction toks as [|k toks IH]; intros seen_toks ps Hall Hi Hc; simpl in Hc.
  - injection Hc as <-. by rewrite app_nil_r.
  - apply Forall_cons in Hall as [Hk Hall].
    destruct (consume ps k) as [ps1| |] eqn:Hk1; simpl in Hc; try done.
    replace (seen_toks ++ k :: toks) with ((seen_toks ++ [k]) ++ toks)
      by by rewrite <- app_assoc.
    eapply IH; [done | by eapply consume_inv | done].
Qed.

Lemma convert_default_keeps m a b m' (v : value) :
  (∀ s, v ≠ VStr s) →
  m !! d = Some v →
  convert_default (Parsed m) a b = Parsed m' →
  m' !! d = Some v.
Proof.
  intros Hv Hm. unfold convert_default. simpl. intros Hc.
  repeat case_match; simplify_eq; try done.
  match goal with |- <[?k:=_]> _ !! _ = _ => destruct (decide (k = d)) as [->|] end.
  - naive_solver.
  - by rewrite lookup_insert_ne.
Qed.

Lemma convert_default_stops (was_seen : argument → bool) parser o :
  (∀ m, o ≠ Parsed m) →
  foldl (λ m a, convert_default m a (was_seen a)) o parser = o.
Proof.
  intros Ho. induction parser as [|a parser IH]; simpl; [done|].
  destruct o as [m| |]; [by destruct (Ho m) | exact IH ..].
Qed.

Lemma convert_defaults_keep (was_seen : argument → bool) parser m0 (v : value) :
  (∀ s, v ≠ VStr s) →
  m0 !! d = Some v →
  match foldl (λ m a, convert_default m a (was_seen a)) (Parsed m0) parser with
  | Parsed m1 => m1 !! d = Some v
  | _ => True
  end.
Proof.
  intros Hv. revert m0.
  induction parser as [|a parser IH]; intros m0 Hm0; cbn [foldl]; [done|].
  destruct (convert_default (Parsed m0) a (was_seen a)) as [m1| |] eqn:Hc.
  - apply IH. by eapply convert_default_keeps.
  - by rewrite convert_default_stops.
  - by rewrite convert_default_stops.
Qed.

Lemma finish_keeps parser st m (v : value) :
  (∀ s, v ≠ VStr s) →
  ns st !! d = Some v →
  finish parser st = Parsed m →
  m !! d = Some v.
Proof.
  intros Hv Hm. unfold finish. case_match; [done|].
  pose proof (convert_defaults_keep
                (λ a, bool_decide (option_strings a ∈ seen st))
                parser (ns st) v Hv Hm) as Hfold.
  cbv beta in Hfold.
  destruct (foldl _ _ _) as [m1| |]; simpl; try done.
  destruct (extras st); [done|]. by intros [= <-].
Qed.

Lemma hit_names argv toks :
  Forall2 (λ t k, parse_optional get_opts_parser t = Parsed k) argv toks →
  existsb (hit flag) toks = supplied flag argv.
Proof.
  unfold supplied.
  induction 1 as [|t k argv toks Hk _ IH]; simpl; [done|].
  rewrite IH. f_equal. unfold names. by rewrite Hk.
Qed.

Lemma flag_parsed argv m :
  get_opts argv = Parsed m →
  m !! d = Some (VBool (if supplied flag argv then on else negb on)).
Proof.
  unfold get_opts, parse_args. intros Hp.
  destruct (classify get_opts_parser argv) as [toks| |] eqn:Hc;
    simpl in Hp; try done.
  pose proof (classify_spec _ _ _ Hc) as Hspec.
  destruct (consume_all _ toks) as [[p st]| |] eqn:Hall; simpl in Hp; try done.
  destruct (flush p st) as [st'| |] eqn:Hfl; simpl in Hp; try done.
  assert (Forall (in_parser get_opts_parser) toks) as Hin.
  { clear -Hspec. induction Hspec; constructor; [|done].
    by eapply parse_optional_in_parser. }
  assert (inv [] (Idle, {| ns := initial_namespace get_opts_parser;
                           seen := []; extras := false |})) as Hinit.
  { split; [|done]. simpl. by destruct Hflag as [_ ->]. }
  destruct (consume_all_inv toks [] _ _ Hin Hinit Hall) as [Hv Hcol].
  simpl in *.
  pose proof (flush_keeps _ _ _ Hcol Hfl) as Hst'. rewrite Hv in Hst'.
  unfold flag_state in Hst'. rewrite (hit_names argv toks Hspec) in Hst'.
  eapply finish_keeps; [|done|done]. done.
Qed.

End Flag.

(** ** The three toggles of the table *)

Lemma is_flag_no_pos : is_flag "--no_pos" "no_pos" false.
Proof. split; vm_compute; reflexivity. Qed.

Lemma is_flag_no_grad : is_flag "--no_grad" "no_grad" false.
Proof. split; vm_compute; reflexivity. Qed.

Lemma is_flag_live_plot : is_flag "--live_plot" "liveplot" true.
Proof. split; vm_compute; reflexivity. Qed.

Lemma shortest_no_pos : shortest_abbreviation "--no_pos" "--no_p".
Proof. split; vm_compute; reflexivity. Qed.

Lemma shortest_no_grad : shortest_abbreviation "--no_grad" "--no_g".
Proof. split; vm_compute; reflexivity. Qed.

Lemma shortest_live_plot : shortest_abbreviation "--live_plot" "--li".
Proof. split; vm_compute; reflexivity. Qed.

Section Names.
Context `{PyBuiltins}.
Variables (flag short d : string) (on : bool).
Hypothesis Hflag : is_flag flag d on.
Hypothesis Hshort : shortest_abbreviation flag short.

Lemma names_prefix t : names flag t = true → String.prefix short t = true.
Proof.
  unfold names.
  destruct (parse_optional get_opts_parser t) as [[s|a o ex|s]| |] eqn:Hp;
    try done.
  intros Hf%bool_decide_eq_true.
  pose proof (parse_optional_in_parser _ _ _ Hp) as Ha. simpl in Ha.
  destruct (row_hit flag d on Hflag a Ha Hf) as (_ & Hos & _).
  destruct Hshort as [Hsf Hall].
  unfold parse_optional in Hp.
  repeat case_match; simplify_eq.
  - match goal with Hfo : find_option _ _ = Some _ |- _ =>
      apply find_option_elem in Hfo as [_ Hin] end.
    rewrite Hos in Hin. by apply list_elem_of_singleton in Hin as ->.
  - match goal with Hb : _ ≫= _ = Some _ |- _ => rename Hb into Hs end.
    destruct (split_at "=" t) as [[o' e']|] eqn:Hsp; simpl in Hs; [|done].
    destruct (find_option get_opts_parser o') eqn:Hfo; simplify_eq/=.
    apply find_option_elem in Hfo as [_ Hin].
    rewrite Hos in Hin. apply list_elem_of_singleton in Hin as ->.
    apply split_at_spec in Hsp as ->. by apply prefix_app.
  - match goal with Hx : abbreviations _ _ = _ |- _ => rename Hx into Hab end.
    assert ((a, o) ∈ abbreviations get_opts_parser
                       (default t (fst <$> split_at "=" t))) as Hin
      by (rewrite Hab; by left).
    apply abbreviations_elem in Hin as (_ & Hin & Hpo).
    rewrite Hos in Hin. apply list_elem_of_singleton in Hin as ->.
    rewrite forallb_forall in Hall.
    specialize (Hall _ (proj1 (list_elem_of_In _ _) (prefix_prefixes _ _ Hpo))).
    rewrite Hab in Hall. simpl in Hall.
    destruct (split_at "=" t) as [[o' e']|] eqn:Hsp; simpl in *; [|done].
    apply split_at_spec in Hsp as ->. by apply prefix_app.
Qed.

Lemma flag_toggles argv m :
  names flag flag = true →
  get_opts argv = Parsed m →
  toggles flag short d on argv m.
Proof.
  intros Hexact Hp. pose proof (flag_parsed flag d on Hflag argv m Hp) as Hm.
  split; [done|]. split.
  - intros Hin.
    assert (supplied flag argv = true) as Hs.
    { apply existsb_exists. exists flag. split; [|done]. by apply list_elem_of_In. }
    by rewrite Hs in Hm.
  - intros Hnone.
    assert (supplied flag argv = false) as Hs.
    { apply not_true_is_false. intros Hs.
      apply existsb_exists in Hs as (t & Hin & Ht).
      apply list_elem_of_In in Hin. apply names_prefix in Ht.
      rewrite (Hnone t Hin) in Ht. done. }
    by rewrite Hs in Hm.
Qed.

End Names.
(** C10 (polarity of the toggles). On every command line that
    [get_opts] parses: [no_pos] and [no_grad] are [True] unless the
    option is supplied and [False] when it is, [liveplot] is [False]
    unless [--live_plot] is supplied and [True] when it is. Supplied
    means that some string of the command line is the option or a form
    of it that argparse resolves to it; in particular the option written
    out in full is supplied, and an option is not supplied when no
    string of the command line begins with its shortest abbreviation
    ([--no_p], [--no_g], [--li]). *)
Theorem toggle_polarity `{PyBuiltins} argv m :
  get_opts argv = Parsed m →
  (m !! "no_pos" = Some (VBool (negb (supplied "--no_pos" argv)))
   ∧ m !! "no_grad" = Some (VBool (negb (supplied "--no_grad" argv)))
   ∧ m !! "liveplot" = Some (VBool (supplied "--live_plot" argv)))
  ∧ toggles "--no_pos" "--no_p" "no_pos" false argv m
  ∧ toggles "--no_grad" "--no_g" "no_grad" false argv m
  ∧ toggles "--live_plot" "--li" "liveplot" true argv m.
Proof.
  intros Hp.
  pose proof (flag_toggles _ _ _ _ is_flag_no_pos shortest_no_pos argv m
                eq_refl Hp) as H1.
  pose proof (flag_toggles _ _ _ _ is_flag_no_grad shortest_no_grad argv m
                eq_refl Hp) as H2.
  pose proof (flag_toggles _ _ _ _ is_flag_live_plot shortest_live_plot argv m
                eq_refl Hp) as H3.
  split; [|done].
  destruct H1 as [H1 _], H2 as [H2 _], H3 as [H3 _].
  rewrite H1, H2, H3.
  by destruct (supplied "--no_pos" argv), (supplied "--no_grad" argv),
    (supplied "--live_plot" argv).
Qed.

#[local] Existing Instance Demo.plain_numerals.

Lemma toggle_polarity_witness :
  get_opts Demo.command_line = Parsed Demo.options
  ∧ Demo.options !! "no_pos" = Some (VBool true)
  ∧ Demo.options !! "no_grad" = Some (VBool false)
  ∧ Demo.options !! "liveplot" = Some (VBool false).
Proof.
  assert (get_opts Demo.command_line = Parsed Demo.options) as Hp
    by (vm_compute; reflexivity).
  split; [exact Hp|].
  destruct (toggle_polarity Demo.command_line Demo.options Hp)
    as (_ & Hpos & Hgrad & Hlive).
  assert (∀ short,
    forallb (λ t, negb (String.prefix short t)) Demo.command_line = true →
    ∀ t, t ∈ Demo.command_line → String.prefix short t = false) as Hnone.
  { intros short Hall t Hin. rewrite forallb_forall in Hall.
    apply list_elem_of_In, Hall in Hin. by apply negb_true_iff in Hin. }
  split; [|split].
  - apply Hpos, Hnone. vm_compute. reflexivity.
  - apply Hgrad. vm_compute. do 6 right. left.
  - apply Hlive, Hnone. vm_compute. reflexivity.
Defined.

End OptionsTheory.
